(** * A shallow embedding of the finite-element Helmholtz solver (solver.py)

    Real quantities are modelled in exact real arithmetic ([R]); complex
    numbers as pairs of reals; numpy 4x4 / 4x2 / 2x2 arrays as functions on
    indices; scipy COO matrices as their triplet lists, whose entry at
    (i, j) is the sum of all triplets landing there. Python exceptions are
    modelled by the result type [py_result]. *)

From Stdlib Require Import Reals Lra List Arith Lia String.
Import ListNotations.
Open Scope R_scope.

(** ** Complex numbers *)

Record C := mkC { re : R; im : R }.

Definition C0 : C := mkC 0 0.
Definition RtoC (x : R) : C := mkC x 0.
Definition Cadd (a b : C) : C := mkC (re a + re b) (im a + im b).
Definition Cmul (a b : C) : C :=
  mkC (re a * re b - im a * im b) (re a * im b + im a * re b).
Definition Cscale (c : R) (a : C) : C := mkC (c * re a) (c * im a).

(** ** Finite sums *)

Fixpoint rsum (n : nat) (f : nat -> R) : R :=
  match n with
  | O => 0
  | S m => rsum m f + f m
  end.

Fixpoint csum (n : nat) (f : nat -> C) : C :=
  match n with
  | O => C0
  | S m => Cadd (csum m f) (f m)
  end.

(** ** Python results: a call returns a value or raises an exception *)

Inductive py_exc :=
| IndexError          (* numpy indexing out of bounds *)
| ValueError          (* scipy: COO index exceeds matrix dimensions *)
| SolverError         (* pypardiso failure *)
| DegenerateElement   (* the error the spec asks the kernel to raise *)
| TypeError           (* numpy: in-place update that would cast complex to float *)
| LinAlgError.        (* numpy.linalg: determinant of a non-square array *)

Inductive py_result (A : Type) :=
| PyRet (a : A)
| PyRaise (e : py_exc).
Arguments PyRet {A} a.
Arguments PyRaise {A} e.

Definition py_bind {A B} (m : py_result A) (k : A -> py_result B) : py_result B :=
  match m with
  | PyRet a => k a
  | PyRaise e => PyRaise e
  end.

Notation "x <- m ;; k" := (py_bind m (fun x => k))
  (at level 61, m at next level, right associativity).

(** ** Element kernel (_build_local_Ke, _build_local_f) *)

(** The 4x2 array [element_points]: row [k] is node [k], column 0 is x,
    column 1 is y. *)
Definition pts4 := nat -> nat -> R.
(** A 4x4 real or complex numpy array. *)
Definition mat4R := nat -> nat -> R.
Definition mat4 := nat -> nat -> C.

Definition isq3 : R := 1 / sqrt 3.

Definition integration_point : list (R * R) :=
  [(- isq3, - isq3); (isq3, - isq3); (isq3, isq3); (- isq3, isq3)].

Definition w : list R := [1; 1; 1; 1].

(** [N[0, k]] *)
Definition shape_N (r s : R) (k : nat) : R :=
  match k with
  | 0 => (1 - r) * (1 - s) / 4
  | 1 => (1 + r) * (1 - s) / 4
  | 2 => (1 + r) * (1 + s) / 4
  | 3 => (1 - r) * (1 + s) / 4
  | _ => 0
  end.

(** [grad_N[k, a]] *)
Definition grad_N (r s : R) (k a : nat) : R :=
  match k, a with
  | 0, 0 => - (1 - s) / 4
  | 0, _ => - (1 - r) / 4
  | 1, 0 => (1 - s) / 4
  | 1, _ => - (1 + r) / 4
  | 2, 0 => (1 + s) / 4
  | 2, _ => (1 + r) / 4
  | 3, 0 => - (1 + s) / 4
  | 3, _ => (1 - r) / 4
  | _, _ => 0
  end.

(** [J = np.dot(grad_N.T, element_points)] *)
Definition jac (pts : pts4) (r s : R) (a b : nat) : R :=
  rsum 4 (fun k => grad_N r s k a * pts k b).

(** [det(J)] of a 2x2 matrix (LU in numpy; the same value in exact
    arithmetic). *)
Definition det2 (J : nat -> nat -> R) : R :=
  J 0%nat 0%nat * J 1%nat 1%nat - J 0%nat 1%nat * J 1%nat 0%nat.

(** [inv_J = np.array([[J[1, 1], -J[0, 1]], [-J[1, 0], J[0, 0]]])] *)
Definition inv_J (J : nat -> nat -> R) (a b : nat) : R :=
  match a, b with
  | 0, 0 => J 1%nat 1%nat
  | 0, _ => - J 0%nat 1%nat
  | _, 0 => - J 1%nat 0%nat
  | _, _ => J 0%nat 0%nat
  end.

(** [B = (1.0 / dJ) * np.dot(inv_J, grad_N.T)] *)
Definition B_mat (pts : pts4) (r s : R) (a k : nat) : R :=
  (1 / det2 (jac pts r s)) * rsum 2 (fun b => inv_J (jac pts r s) a b * grad_N r s k b).

Definition point (i : nat) : R * R := nth i integration_point (0, 0).
Definition weight (i : nat) : R := nth i w 0.

(** dJ at integration point [i] *)
Definition dJ_at (pts : pts4) (i : nat) : R :=
  let '(r, s) := point i in det2 (jac pts r s).

(** [np.dot(N.T, N)] at integration point [i] *)
Definition NN_at (i k l : nat) : R :=
  let '(r, s) := point i in shape_N r s k * shape_N r s l.

(** [np.dot(B.T, B)] at integration point [i] *)
Definition BB_at (pts : pts4) (i k l : nat) : R :=
  let '(r, s) := point i in rsum 2 (fun a => B_mat pts r s a k * B_mat pts r s a l).

(** The increments of line 69 ([M_hat]), 70 ([C_hat], purely imaginary:
    [w[i] * 1j * omega * eta * ...]) and 71 ([K_hat]). *)
Definition M_inc (pts : pts4) (omega mu : R) (i k l : nat) : R :=
  weight i * - (omega ^ 2) * mu * NN_at i k l * dJ_at pts i.

Definition C_inc (pts : pts4) (omega eta : R) (i k l : nat) : C :=
  mkC 0 (weight i * omega * eta * NN_at i k l * dJ_at pts i).

Definition K_inc (pts : pts4) (i k l : nat) : R :=
  weight i * BB_at pts i k l * dJ_at pts i.

(** The three accumulators [M_hat], [C_hat], [K_hat]. *)
Definition ke_acc := (mat4R * mat4 * mat4R)%type.

(** One iteration of the loop [for i in range(4)] of _build_local_Ke. *)
Definition ke_step (pts : pts4) (omega mu eta : R) (acc : ke_acc) (i : nat) : ke_acc :=
  let '(M_hat, C_hat, K_hat) := acc in
  ((fun k l => M_hat k l + M_inc pts omega mu i k l),
   (fun k l => Cadd (C_hat k l) (C_inc pts omega eta i k l)),
   (fun k l => K_hat k l + K_inc pts i k l)).

Definition local_Ke_acc (pts : pts4) (omega mu eta : R) : mat4 :=
  let '(M_hat, C_hat, K_hat) :=
    fold_left (ke_step pts omega mu eta) (seq 0 4)
      ((fun _ _ => 0), (fun _ _ => C0), (fun _ _ => 0)) in
  fun k l => Cadd (Cadd (RtoC (M_hat k l)) (C_hat k l)) (RtoC (K_hat k l)).

(** [_build_local_Ke]: the body contains no [raise]; numpy division by a
    zero determinant yields inf/nan with a warning, not an exception. *)
Definition _build_local_Ke (pts : pts4) (omega mu eta : R) : py_result mat4 :=
  PyRet (local_Ke_acc pts omega mu eta).

(** One iteration of the loop of _build_local_f: [f += w[i] * N.T * S_e * dJ]. *)
Definition f_inc (pts : pts4) (S_e : R) (i k : nat) : R :=
  let '(r, s) := point i in weight i * shape_N r s k * S_e * dJ_at pts i.

Definition f_step (pts : pts4) (S_e : R) (f : nat -> R) (i : nat) : nat -> R :=
  fun k => f k + f_inc pts S_e i k.

Definition local_f_acc (pts : pts4) (S_e : R) : nat -> R :=
  fold_left (f_step pts S_e) (seq 0 4) (fun _ => 0).

Definition _build_local_f (pts : pts4) (S_e : R) : py_result (nat -> R) :=
  PyRet (local_f_acc pts S_e).

(** ** Mesh and global assembly (_assembly_K, _assembly_f) *)

(** A connectivity entry: the 4 global node indices of an element. They
    are modelled as natural numbers: the model covers meshes whose
    connectivity holds non-negative integers. A negative Python index,
    which numpy's [f[p, 0]] counts from the end and scipy's [coo_matrix]
    refuses, is outside it. *)
Definition conn4 := (nat * nat * nat * nat)%type.

Definition conn_nodes (c : conn4) : list nat :=
  let '(a, b, c, d) := c in [a; b; c; d].

(** Python's [enumerate]. *)
Definition enumerate {A} (l : list A) : list (nat * A) :=
  combine (seq 0 (List.length l)) l.

Record Mesh := {
  n_points : nat;
  connectivity_list : list conn4;
  points_in_elements : list pts4;
  mu : list R;
  eta : list R;
  source_at_element : nat -> R
}.

(** A scipy COO matrix of shape [coo_shape x coo_shape]: its triplets
    [(row, column, value)]. *)
Record coo := { coo_shape : nat; coo_data : list (nat * nat * C) }.

(** The entry [(i, j)]: duplicate triplets are summed. *)
Definition trip_entry (i j : nat) (t : nat * nat * C) : C :=
  let '(a, b, v) := t in if (Nat.eqb a i && Nat.eqb b j)%bool then v else C0.

Definition trip_sum (T : list (nat * nat * C)) (i j : nat) : C :=
  fold_right (fun t acc => Cadd (trip_entry i j t) acc) C0 T.

Definition coo_get (K : coo) (i j : nat) : C := trip_sum (coo_data K) i j.

(** [coo_matrix((data, (i, j)), shape=(n, n))]: scipy rejects an index out
    of the declared shape. *)
Definition coo_matrix (T : list (nat * nat * C)) (n : nat) : py_result coo :=
  if forallb (fun '(a, b, _) => (Nat.ltb a n && Nat.ltb b n)%bool) T
  then PyRet {| coo_shape := n; coo_data := T |}
  else PyRaise ValueError.

Fixpoint py_mapM {A B} (f : A -> py_result B) (l : list A) : py_result (list B) :=
  match l with
  | [] => PyRet []
  | x :: t => y <- f x;; ys <- py_mapM f t;; PyRet (y :: ys)
  end.

(** [zip(mesh.connectivity_list, mesh.points_in_elements, mesh.mu, mesh.eta)] *)
Definition elements_K (mesh : Mesh) : list (conn4 * pts4 * R * R) :=
  combine (combine (combine (connectivity_list mesh) (points_in_elements mesh))
             (mu mesh)) (eta mesh).

(** The 16 triplets an element emits, in the order of the double loop. *)
Definition element_triplets (conn : conn4) (Ke_local : mat4) : list (nat * nat * C) :=
  flat_map (fun '(k, p1) =>
              map (fun '(l, p2) => (p1, p2, Ke_local k l)) (enumerate (conn_nodes conn)))
           (enumerate (conn_nodes conn)).

(** [_assembly_K]. [g.choose_impl] selects either the compiled [_fwi_ls]
    kernel (not part of these sources) or [_build_local_Ke]; the reference
    kernel is the one modelled. *)
Definition _assembly_K (mesh : Mesh) (omega : R) : py_result coo :=
  Ke_local_list <-
    py_mapM (fun '(conn, points, m, e) =>
               Kl <- _build_local_Ke points omega m e;; PyRet (conn, Kl))
            (elements_K mesh);;
  coo_matrix (flat_map (fun '(conn, Kl) => element_triplets conn Kl) Ke_local_list)
             (n_points mesh).

(** [f[p, 0] += v] on the dense global vector: out of range is an
    IndexError. *)
Fixpoint add_at (f : list R) (p : nat) (v : R) : py_result (list R) :=
  match f, p with
  | [], _ => PyRaise IndexError
  | x :: t, O => PyRet ((x + v) :: t)
  | x :: t, S p' => t' <- add_at t p' v;; PyRet (x :: t')
  end.

(** [for k, p in enumerate(connectivity): f[p, 0] += f_local[k, 0]] *)
Fixpoint scatter_f (slots : list (nat * nat)) (f_local : nat -> R) (f : list R)
  : py_result (list R) :=
  match slots with
  | [] => PyRet f
  | (k, p) :: rest => f' <- add_at f p (f_local k);; scatter_f rest f_local f'
  end.

(** The element loop of [_assembly_f], over
    [enumerate(zip(mesh.connectivity_list, mesh.points_in_elements))]. *)
Fixpoint assembly_f_loop (source : nat -> R) (elems : list (nat * (conn4 * pts4)))
  (f : list R) : py_result (list R) :=
  match elems with
  | [] => PyRet f
  | (eid, (conn, points)) :: rest =>
      f_local <- _build_local_f points (source eid);;
      f' <- scatter_f (enumerate (conn_nodes conn)) f_local f;;
      assembly_f_loop source rest f'
  end.

Definition elements_f (mesh : Mesh) : list (nat * (conn4 * pts4)) :=
  enumerate (combine (connectivity_list mesh) (points_in_elements mesh)).

(** [_assembly_f]: [f = np.zeros(shape=(mesh.n_points, 1))], then the loop. *)
Definition _assembly_f (mesh : Mesh) : py_result (list R) :=
  assembly_f_loop (source_at_element mesh) (elements_f mesh) (repeat 0 (n_points mesh)).

Definition _prepare_linear_system (mesh : Mesh) (omega : R) : py_result (coo * list R) :=
  K <- _assembly_K mesh omega;; f <- _assembly_f mesh;; PyRet (K, f).

(** ** Complex-to-real transform, linear solve, orchestration *)

Definition rmat := nat -> nat -> R.
Definition rvec := nat -> R.

(** Modelled from the spec: [convert_complex_linear_system_to_real] of the
    module [complex_linear_system] (not in these sources), section 4.3:
    [Ke = [[Kr, -Ki], [Ki, Kr]]] of size 2n and [fe = [f; 0]]. *)
Definition convert_matrix (K : coo) : rmat :=
  let n := coo_shape K in
  fun r c =>
    if Nat.ltb r n then
      if Nat.ltb c n then re (coo_get K r c) else - im (coo_get K r (c - n))
    else
      if Nat.ltb c n then im (coo_get K (r - n) c) else re (coo_get K (r - n) (c - n)).

Definition convert_rhs (K : coo) (f : list R) : rvec :=
  fun r => if Nat.ltb r (coo_shape K) then nth r f 0 else 0.

Definition convert_complex_linear_system_to_real (K : coo) (f : list R) : rmat * rvec :=
  (convert_matrix K, convert_rhs K f).

(** Modelled from the spec: [extract_complex_solution] of the module
    [complex_linear_system]: [x = ye[0:n] + 1j * ye[n:2n]] with
    [n = len(ye) // 2]. *)
Definition extract_complex_solution (ye : list R) : list C :=
  let n := (List.length ye / 2)%nat in
  map (fun i => mkC (nth i ye 0) (nth (n + i) ye 0)) (seq 0 n).

(** Real matrix-vector product of size [m]: row [r] of [A * y]. *)
Definition rmatvec (A : rmat) (m : nat) (y : list R) (r : nat) : R :=
  rsum m (fun c => A r c * nth c y 0).

(** Complex product [K * x], row [i]. *)
Definition cmatvec (K : coo) (x : list C) (i : nat) : C :=
  csum (coo_shape K) (fun j => Cmul (coo_get K i j) (nth j x C0)).

(** Modelled from the spec: [pypardiso.spsolve] (external, section 4.4):
    it returns a dense vector solving the system, or raises a solver
    error. *)
Inductive spsolve (A : rmat) (m : nat) (b : rvec) : py_result (list R) -> Prop :=
| spsolve_ok (y : list R) :
    List.length y = m ->
    (forall r, (r < m)%nat -> rmatvec A m y r = b r) ->
    spsolve A m b (PyRet y)
| spsolve_fail : spsolve A m b (PyRaise SolverError).

Definition py_map {A B} (f : A -> B) (m : py_result A) : py_result B :=
  match m with
  | PyRet a => PyRet (f a)
  | PyRaise e => PyRaise e
  end.

(** Lines 20-21 of [solve_2d_hellmholtz]: the possible outcomes of
    computing the field [P]. *)
Definition solve_field (mesh : Mesh) (omega : R) (res : py_result (list C)) : Prop :=
  match _prepare_linear_system mesh omega with
  | PyRaise e => res = PyRaise e
  | PyRet (K, f) =>
      let '(Ke, fe) := convert_complex_linear_system_to_real K f in
      exists y, spsolve Ke (2 * coo_shape K) fe y /\
                res = py_map extract_complex_solution y
  end.

(** Callback registry: event name to the handlers registered for it, in
    registration order; handlers are identified by a number. *)
Definition registry := list (string * list nat).

Record call := mkCall { call_handler : nat; call_P : list C; call_mesh : Mesh }.

Fixpoint lookup_event (ev : string) (cbs : registry) : list nat :=
  match cbs with
  | [] => []
  | (k, hs) :: t => if String.eqb k ev then hs else lookup_event ev t
  end.

(** Modelled from the spec: [dispatch_callbacks] of the module [callbacks]
    (section 4.5): each handler of the event is invoked in registration
    order with [P] and [mesh]; an event with no handler is a no-op. The
    result is the list of invocations. *)
Definition dispatch_callbacks (cbs : registry) (ev : string) (P : list C) (mesh : Mesh)
  : list call :=
  map (fun h => mkCall h P mesh) (lookup_event ev cbs).

(** Python values returned by [solve_2d_hellmholtz]. *)
Inductive pyval := PyNone | PyField (P : list C).

(** [solve_2d_hellmholtz(mesh, omega, callbacks)]: the returned value (or
    exception) and the handler invocations. The function has no [return]
    statement. *)
Definition solve_2d_hellmholtz (mesh : Mesh) (omega : R) (callbacks : option registry)
  (out : py_result pyval * list call) : Prop :=
  let callbacks := match callbacks with None => [] | Some c => c end in
  exists res, solve_field mesh omega res /\
    out = match res with
          | PyRaise e => (PyRaise e, [])
          | PyRet P =>
              (PyRet PyNone,
               dispatch_callbacks callbacks "on_after_solve_2d_hellmholtz" P mesh)
          end.

(** ** The kernel as the spec describes it (section 4.1), for comparison *)

(** The Gauss abscissae [+-1/sqrt 3]; the rule is their 2x2 product with
    unit weights. *)
Definition gauss_1d : list R := [- (1 / sqrt 3); 1 / sqrt 3].

Definition N_spec (r s : R) (k : nat) : R :=
  match k with
  | 0 => (1 - r) * (1 - s) / 4
  | 1 => (1 + r) * (1 - s) / 4
  | 2 => (1 + r) * (1 + s) / 4
  | 3 => (1 - r) * (1 + s) / 4
  | _ => 0
  end.

(** The reference gradient [(dN_k/dr, dN_k/ds)]. *)
Definition gradN_spec (r s : R) (k a : nat) : R :=
  match k, a with
  | 0, 0 => - (1 - s) / 4 | 0, _ => - (1 - r) / 4
  | 1, 0 => (1 - s) / 4   | 1, _ => - (1 + r) / 4
  | 2, 0 => (1 + s) / 4   | 2, _ => (1 + r) / 4
  | 3, 0 => - (1 + s) / 4 | 3, _ => (1 - r) / 4
  | _, _ => 0
  end.

(** [J = gradN^T . element_points] *)
Definition J_spec (pts : pts4) (r s : R) (a b : nat) : R :=
  rsum 4 (fun k => gradN_spec r s k a * pts k b).

Definition dJ_spec (pts : pts4) (r s : R) : R :=
  J_spec pts r s 0%nat 0%nat * J_spec pts r s 1%nat 1%nat
  - J_spec pts r s 0%nat 1%nat * J_spec pts r s 1%nat 0%nat.

(** The 2x2 cofactor formula [[J11, -J01], [-J10, J00]]. *)
Definition invJ_spec (pts : pts4) (r s : R) (a b : nat) : R :=
  match a, b with
  | 0, 0 => J_spec pts r s 1%nat 1%nat
  | 0, _ => - J_spec pts r s 0%nat 1%nat
  | _, 0 => - J_spec pts r s 1%nat 0%nat
  | _, _ => J_spec pts r s 0%nat 0%nat
  end.

(** [B = (1/dJ) . inv(J) . gradN^T] *)
Definition B_spec (pts : pts4) (r s : R) (a k : nat) : R :=
  / dJ_spec pts r s * rsum 2 (fun b => invJ_spec pts r s a b * gradN_spec r s k b).

(** The contribution of one Gauss point: [-w^2 mu (N^t N) dJ + i w eta
    (N^t N) dJ + (B^t B) dJ]. *)
Definition Ke_point_spec (pts : pts4) (omega mu eta r s : R) (k l : nat) : C :=
  let dJ := dJ_spec pts r s in
  let NN := N_spec r s k * N_spec r s l in
  Cadd (Cadd (RtoC (- omega ^ 2 * mu * NN * dJ))
             (Cmul (mkC 0 1) (RtoC (omega * eta * NN * dJ))))
       (RtoC (rsum 2 (fun a => B_spec pts r s a k * B_spec pts r s a l) * dJ)).

Definition local_Ke_spec (pts : pts4) (omega mu eta : R) (k l : nat) : C :=
  fold_right (fun r acc =>
    fold_right (fun s acc' => Cadd (Ke_point_spec pts omega mu eta r s k l) acc')
               acc gauss_1d)
    C0 gauss_1d.

(** ** Assembly as the spec describes it (section 4.2), for comparison *)

(** The contribution of one element to the global entry [(i, j)]: the sum
    over ordered slot pairs [(k, l)] with [connectivity[k] = i] and
    [connectivity[l] = j] of the local entries. *)
Definition elem_entry (conn : conn4) (Ke_local : mat4) (i j : nat) : C :=
  csum 4 (fun k => csum 4 (fun l =>
    if (Nat.eqb (nth k (conn_nodes conn) 0%nat) i
        && Nat.eqb (nth l (conn_nodes conn) 0%nat) j)%bool
    then Ke_local k l else C0)).

(** The sum over all elements of their contributions to [(i, j)]. *)
Definition assembled_entry (mesh : Mesh) (omega : R) (i j : nat) : C :=
  fold_right (fun '(conn, points, m, e) acc =>
                Cadd (elem_entry conn (local_Ke_acc points omega m e) i j) acc)
             C0 (elements_K mesh).

(** The contribution of one element to the global load at node [p]. *)
Definition elem_load (conn : conn4) (f_local : nat -> R) (p : nat) : R :=
  rsum 4 (fun k => if Nat.eqb (nth k (conn_nodes conn) 0%nat) p then f_local k else 0).

Definition assembled_load (mesh : Mesh) (p : nat) : R :=
  fold_right (fun '(eid, (conn, points)) acc =>
                elem_load conn (local_f_acc points (source_at_element mesh eid)) p + acc)
             0 (elements_f mesh).

(** ** Concrete meshes *)

(** The axis-aligned unit square with lower-left corner [(x0, 0)], nodes in
    counter-clockwise order. *)
Definition square_at (x0 : R) : pts4 :=
  fun k b =>
    match k, b with
    | 0, 0 => x0     | 0, _ => 0
    | 1, 0 => x0 + 1 | 1, _ => 0
    | 2, 0 => x0 + 1 | 2, _ => 1
    | 3, 0 => x0     | 3, _ => 1
    | _, _ => 0
    end.

(** Two unit squares sharing the edge between nodes 1 and 4:
    nodes 0 1 2 on the bottom row, 3 4 5 on the top row. *)
Definition two_elem_mesh : Mesh := {|
  n_points := 6;
  connectivity_list := [(0, 1, 4, 3); (1, 2, 5, 4)]%nat;
  points_in_elements := [square_at 0; square_at 1];
  mu := [1; 1];
  eta := [0; 0];
  source_at_element := fun _ => 1
|}.

(** A mesh with three nodes and no element. *)
Definition empty_mesh : Mesh := {|
  n_points := 3;
  connectivity_list := [];
  points_in_elements := [];
  mu := [];
  eta := [];
  source_at_element := fun _ => 0
|}.

(** The mirror image [x -> -x] of an element (same node order): it
    reverses the orientation, hence the sign of [dJ]. *)
Definition mirror (pts : pts4) : pts4 :=
  fun k b => if Nat.eqb b 0 then - pts k b else pts k b.

(** The event [solve_2d_hellmholtz] dispatches. *)
Definition on_after_solve : string := "on_after_solve_2d_hellmholtz".

(** The field of length [n_points] reaches the caller: returned, or passed
    to some handler together with the mesh. *)
Definition field_delivered (mesh : Mesh) (out : py_result pyval * list call) : Prop :=
  (exists P, fst out = PyRet (PyField P) /\ List.length P = n_points mesh) \/
  (exists h P, In (mkCall h P mesh) (snd out) /\ List.length P = n_points mesh).

(** The same mesh with every element's source magnitude multiplied by [c]. *)
Definition scale_source (c : R) (mesh : Mesh) : Mesh := {|
  n_points := n_points mesh;
  connectivity_list := connectivity_list mesh;
  points_in_elements := points_in_elements mesh;
  mu := mu mesh;
  eta := eta mesh;
  source_at_element := fun e => c * source_at_element mesh e
|}.

(** A real square matrix of size [m] whose only null vector is zero. *)
Definition nonsingular (A : rmat) (m : nat) : Prop :=
  forall y, List.length y = m ->
    (forall r, (r < m)%nat -> rmatvec A m y r = 0) ->
    forall c, (c < m)%nat -> nth c y 0 = 0.

(** One unit-square element whose four slots all map to node 0. *)
Definition one_node_mesh : Mesh := {|
  n_points := 1;
  connectivity_list := [(0, 0, 0, 0)]%nat;
  points_in_elements := [square_at 0];
  mu := [1];
  eta := [0];
  source_at_element := fun _ => 1
|}.

(** The element translated by [(dx, dy)]. *)
Definition translate (pts : pts4) (dx dy : R) : pts4 :=
  fun k b => if Nat.eqb b 0 then pts k b + dx else pts k b + dy.

(** The element scaled by [lam] about the origin. *)
Definition scale_pts (lam : R) (pts : pts4) : pts4 := fun k b => lam * pts k b.

(** The same mesh keeping only the first [m] connectivity rows. *)
Definition keep_elements (m : nat) (mesh : Mesh) : Mesh := {|
  n_points := n_points mesh;
  connectivity_list := firstn m (connectivity_list mesh);
  points_in_elements := points_in_elements mesh;
  mu := mu mesh;
  eta := eta mesh;
  source_at_element := source_at_element mesh
|}.

(** The same mesh with the element sources given by [src]. *)
Definition with_source (src : nat -> R) (mesh : Mesh) : Mesh := {|
  n_points := n_points mesh;
  connectivity_list := connectivity_list mesh;
  points_in_elements := points_in_elements mesh;
  mu := mu mesh;
  eta := eta mesh;
  source_at_element := src
|}.


(** ** The kernels over the Python heap

    The kernels allocate numpy arrays and update some of them in place
    ([N[0, k] = ...], [M_hat += ...], [f += ...]); the caller passes
    [element_points] by reference. To state what they read and write,
    every Python object lives in a heap. The arrays the kernels create and
    never modify ([integration_point], [w], [grad_N], [J], [inv_J], [B])
    are kept as values. *)

(** A 2-D numpy array of dtype float64 or complex128: its shape and its
    entries. *)
Inductive ndarray :=
| NdFloat (rows cols : nat) (d : nat -> nat -> R)
| NdComplex (rows cols : nat) (d : nat -> nat -> C).

(** The heap: the object at each address; [hp_next] is the first free
    address. *)
Record heap := mkHeap { hp_next : nat; hp_obj : nat -> ndarray }.

(** A Python computation: its result or exception, and the heap after it. *)
Definition PyM (A : Type) : Type := heap -> py_result A * heap.

Definition mret {A} (a : A) : PyM A := fun h => (PyRet a, h).

Definition mraise {A} (e : py_exc) : PyM A := fun h => (PyRaise e, h).

Definition mbind {A B} (m : PyM A) (k : A -> PyM B) : PyM B :=
  fun h => match m h with
           | (PyRet a, h') => k a h'
           | (PyRaise e, h') => (PyRaise e, h')
           end.

Definition mlift {A} (r : py_result A) : PyM A := fun h => (r, h).

Notation "x <-- m ;;; k" := (mbind m (fun x => k))
  (at level 61, m at next level, right associativity).

Definition heap_alloc (h : heap) (a : ndarray) : heap :=
  mkHeap (S (hp_next h)) (fun q => if Nat.eqb q (hp_next h) then a else hp_obj h q).

Definition heap_set (h : heap) (p : nat) (a : ndarray) : heap :=
  mkHeap (hp_next h) (fun q => if Nat.eqb q p then a else hp_obj h q).

(** A new object, at the first free address. *)
Definition alloc (a : ndarray) : PyM nat := fun h => (PyRet (hp_next h), heap_alloc h a).

Definition load (p : nat) : PyM ndarray := fun h => (PyRet (hp_obj h p), h).

Definition store (p : nat) (a : ndarray) : PyM unit := fun h => (PyRet tt, heap_set h p a).

Definition upd2 {A} (d : nat -> nat -> A) (i j : nat) (v : A) : nat -> nat -> A :=
  fun a b => if (Nat.eqb a i && Nat.eqb b j)%bool then v else d a b.

(** [X[i, j] = v] with a float [v]; IndexError outside the shape. *)
Definition setitem (p i j : nat) (v : R) : PyM unit :=
  X <-- load p ;;;
  match X with
  | NdFloat rows cols d =>
      if (Nat.ltb i rows && Nat.ltb j cols)%bool
      then store p (NdFloat rows cols (upd2 d i j v)) else mraise IndexError
  | NdComplex rows cols d =>
      if (Nat.ltb i rows && Nat.ltb j cols)%bool
      then store p (NdComplex rows cols (upd2 d i j (RtoC v))) else mraise IndexError
  end.

(** An array read where the code computes in float64. A complex array
    there makes the later in-place update of a float accumulator fail
    with numpy's casting TypeError, raised here at the read. *)
Definition load_float (p : nat) : PyM (nat * nat * (nat -> nat -> R)) :=
  X <-- load p ;;;
  match X with
  | NdFloat rows cols d => mret (rows, cols, d)
  | NdComplex _ _ _ => mraise TypeError
  end.

Definition load_complex (p : nat) : PyM (nat -> nat -> C) :=
  X <-- load p ;;;
  match X with
  | NdFloat _ _ d => mret (fun a b => RtoC (d a b))
  | NdComplex _ _ d => mret d
  end.

(** [X += Y] in place, for a real [Y] of the shape of [X]. *)
Definition iadd_float (p : nat) (Y : nat -> nat -> R) : PyM unit :=
  X <-- load p ;;;
  match X with
  | NdFloat rows cols d => store p (NdFloat rows cols (fun a b => d a b + Y a b))
  | NdComplex rows cols d =>
      store p (NdComplex rows cols (fun a b => Cadd (d a b) (RtoC (Y a b))))
  end.

(** [X += Y] in place, for a complex [Y]: numpy refuses to cast it into a
    float64 array. *)
Definition iadd_complex (p : nat) (Y : nat -> nat -> C) : PyM unit :=
  X <-- load p ;;;
  match X with
  | NdFloat _ _ _ => mraise TypeError
  | NdComplex rows cols d => store p (NdComplex rows cols (fun a b => Cadd (d a b) (Y a b)))
  end.

(** [J = np.dot(grad_N.T, element_points)] and then [det(J)]: the product
    needs [element_points] to have 4 rows (ValueError otherwise), the
    determinant needs [J], of shape [(2, cols)], to be square
    (LinAlgError otherwise). *)
Definition np_jacobian (r s : R) (P : nat * nat * (nat -> nat -> R))
  : py_result (nat -> nat -> R) :=
  let '(rows, cols, d) := P in
  if Nat.eqb rows 4 then
    if Nat.eqb cols 2 then PyRet (jac d r s) else PyRaise LinAlgError
  else PyRaise ValueError.

(** [for i in l: body(i)] *)
Fixpoint py_for (l : list nat) (body : nat -> PyM unit) : PyM unit :=
  match l with
  | [] => mret tt
  | i :: t => _ <-- body i ;;; py_for t body
  end.

(** One iteration of the loop of [_build_local_Ke] (lines 47-71): [N],
    [M_hat], [C_hat], [K_hat] are at [nA], [mA], [cA], [kA], the caller's
    [element_points] at [ep]. *)
Definition ke_body_heap (ep nA mA cA kA : nat) (omega mu eta : R) (i : nat) : PyM unit :=
  let '(r, s) := point i in
  _ <-- setitem nA 0 0 ((1 - r) * (1 - s) / 4) ;;;
  _ <-- setitem nA 0 1 ((1 + r) * (1 - s) / 4) ;;;
  _ <-- setitem nA 0 2 ((1 + r) * (1 + s) / 4) ;;;
  _ <-- setitem nA 0 3 ((1 - r) * (1 + s) / 4) ;;;
  P <-- load_float ep ;;;
  J <-- mlift (np_jacobian r s P) ;;;
  let dJ := det2 J in
  let B := fun a k => (1 / dJ) * rsum 2 (fun b => inv_J J a b * grad_N r s k b) in
  Nv <-- load_float nA ;;;
  (* np.dot(N.T, N), N of shape (1, 4) *)
  let NN := fun k l => snd Nv 0%nat k * snd Nv 0%nat l in
  _ <-- iadd_float mA (fun k l => weight i * - (omega ^ 2) * mu * NN k l * dJ) ;;;
  _ <-- iadd_complex cA (fun k l => mkC 0 (weight i * omega * eta * NN k l * dJ)) ;;;
  iadd_float kA (fun k l => weight i * rsum 2 (fun a => B a k * B a l) * dJ).

(** [_build_local_Ke(element_points, omega, mu, eta)] with [element_points]
    at address [ep]; the result is the address of the returned array. *)
Definition build_local_Ke_heap (ep : nat) (omega mu eta : R) : PyM nat :=
  nA <-- alloc (NdFloat 1 4 (fun _ _ => 0)) ;;;
  mA <-- alloc (NdFloat 4 4 (fun _ _ => 0)) ;;;
  cA <-- alloc (NdComplex 4 4 (fun _ _ => C0)) ;;;
  kA <-- alloc (NdFloat 4 4 (fun _ _ => 0)) ;;;
  _ <-- py_for (seq 0 4) (ke_body_heap ep nA mA cA kA omega mu eta) ;;;
  M <-- load_float mA ;;;
  Ch <-- load_complex cA ;;;
  Kh <-- load_float kA ;;;
  (* K = M_hat + C_hat + K_hat *)
  alloc (NdComplex 4 4 (fun k l => Cadd (Cadd (RtoC (snd M k l)) (Ch k l)) (RtoC (snd Kh k l)))).

(** One iteration of the loop of [_build_local_f] (lines 122-140). *)
Definition f_body_heap (ep nA fA : nat) (S_e : R) (i : nat) : PyM unit :=
  let '(r, s) := point i in
  _ <-- setitem nA 0 0 ((1 - r) * (1 - s) / 4) ;;;
  _ <-- setitem nA 0 1 ((1 + r) * (1 - s) / 4) ;;;
  _ <-- setitem nA 0 2 ((1 + r) * (1 + s) / 4) ;;;
  _ <-- setitem nA 0 3 ((1 - r) * (1 + s) / 4) ;;;
  P <-- load_float ep ;;;
  J <-- mlift (np_jacobian r s P) ;;;
  let dJ := det2 J in
  Nv <-- load_float nA ;;;
  (* f += w[i] * N.T * S_e * dJ *)
  iadd_float fA (fun k _ => weight i * snd Nv 0%nat k * S_e * dJ).

(** [_build_local_f(element_points, S_e)]: it returns the array [f] it
    allocated. *)
Definition build_local_f_heap (ep : nat) (S_e : R) : PyM nat :=
  nA <-- alloc (NdFloat 1 4 (fun _ _ => 0)) ;;;
  fA <-- alloc (NdFloat 4 1 (fun _ _ => 0)) ;;;
  _ <-- py_for (seq 0 4) (f_body_heap ep nA fA S_e) ;;;
  mret fA.

(** A heap holding one 4x2 element array, at address 0. *)
Definition one_element_heap (pts : pts4) : heap := mkHeap 1 (fun _ => NdFloat 4 2 pts).

(** * Lemmas *)

Lemma C_ext (a b : C) : re a = re b -> im a = im b -> a = b.
Proof. destruct a, b; simpl; intros -> ->; reflexivity. Qed.

Lemma re_csum n f : re (csum n f) = rsum n (fun i => re (f i)).
Proof. induction n; simpl; [reflexivity | rewrite IHn; reflexivity]. Qed.

Lemma im_csum n f : im (csum n f) = rsum n (fun i => im (f i)).
Proof. induction n; simpl; [reflexivity | rewrite IHn; reflexivity]. Qed.

Lemma rsum_ext n f g : (forall i, (i < n)%nat -> f i = g i) -> rsum n f = rsum n g.
Proof.
  induction n; intros H; simpl; [reflexivity|].
  rewrite IHn by (intros; apply H; lia). rewrite H by lia. reflexivity.
Qed.

Lemma rsum_split n m f : rsum (n + m) f = rsum n f + rsum m (fun c => f (n + c)%nat).
Proof.
  induction m; simpl.
  - rewrite Nat.add_0_r. ring.
  - rewrite Nat.add_succ_r. simpl. rewrite IHm. ring.
Qed.

Lemma rsum_add n f g : rsum n (fun i => f i + g i) = rsum n f + rsum n g.
Proof. induction n; simpl; [ring | rewrite IHn; ring]. Qed.

Lemma rsum_scale n c f : rsum n (fun i => c * f i) = c * rsum n f.
Proof. induction n; simpl; [ring | rewrite IHn; ring]. Qed.

Lemma local_Ke_acc_closed pts omega mu eta k l :
  local_Ke_acc pts omega mu eta k l =
  Cadd (Cadd (RtoC (rsum 4 (fun i => M_inc pts omega mu i k l)))
             (csum 4 (fun i => C_inc pts omega eta i k l)))
       (RtoC (rsum 4 (fun i => K_inc pts i k l))).
Proof.
  unfold local_Ke_acc. cbn -[M_inc C_inc K_inc].
  apply C_ext; simpl; ring.
Qed.

Lemma local_f_acc_closed pts S_e k :
  local_f_acc pts S_e k = rsum 4 (fun i => f_inc pts S_e i k).
Proof. unfold local_f_acc, f_step. cbn -[f_inc]. ring. Qed.

Lemma B_mat_spec pts r s a k : B_mat pts r s a k = B_spec pts r s a k.
Proof. unfold B_mat, B_spec. unfold Rdiv. rewrite Rmult_1_l. reflexivity. Qed.

(** The three increments of one loop iteration, with a unit weight, are the
    spec's contribution of that Gauss point. *)
Lemma inc_point_spec pts omega mu eta i k l :
  weight i = 1 ->
  Cadd (Cadd (RtoC (M_inc pts omega mu i k l)) (C_inc pts omega eta i k l))
       (RtoC (K_inc pts i k l)) =
  Ke_point_spec pts omega mu eta (fst (point i)) (snd (point i)) k l.
Proof.
  intros Hw. unfold M_inc, C_inc, K_inc, NN_at, BB_at, dJ_at.
  rewrite Hw. destruct (point i) as [r s]. simpl fst; simpl snd.
  unfold Ke_point_spec.
  change (det2 (jac pts r s)) with (dJ_spec pts r s).
  change shape_N with N_spec.
  simpl rsum. rewrite !B_mat_spec.
  apply C_ext; simpl; ring.
Qed.

Lemma csum_ext n f g : (forall i, (i < n)%nat -> f i = g i) -> csum n f = csum n g.
Proof.
  induction n; intros H; simpl; [reflexivity|].
  rewrite IHn by (intros; apply H; lia). rewrite H by lia. reflexivity.
Qed.

Lemma weight_lt4 i : (i < 4)%nat -> weight i = 1.
Proof. intros Hi. do 4 (destruct i as [|i]; [reflexivity|]). lia. Qed.

Lemma local_Ke_acc_points pts omega mu eta k l :
  local_Ke_acc pts omega mu eta k l =
  csum 4 (fun i => Ke_point_spec pts omega mu eta (fst (point i)) (snd (point i)) k l).
Proof.
  rewrite local_Ke_acc_closed.
  rewrite <- (csum_ext 4 _ _ (fun i Hi =>
                inc_point_spec pts omega mu eta i k l (weight_lt4 i Hi))).
  apply C_ext; simpl; rewrite ?re_csum, ?im_csum; simpl; ring.
Qed.

Lemma Ke_point_spec_sym pts omega mu eta r s k l :
  Ke_point_spec pts omega mu eta r s k l = Ke_point_spec pts omega mu eta r s l k.
Proof. unfold Ke_point_spec. apply C_ext; simpl; ring. Qed.

(** Every local matrix is symmetric. *)
Lemma local_Ke_acc_sym pts omega mu eta k l :
  local_Ke_acc pts omega mu eta k l = local_Ke_acc pts omega mu eta l k.
Proof.
  rewrite !local_Ke_acc_points. apply csum_ext. intros i _.
  apply Ke_point_spec_sym.
Qed.

(** C5: [_build_local_Ke] returns, entry by entry, the 2x2 Gauss
    quadrature (points [+-1/sqrt 3], unit weights) of
    [-w^2 mu N^t N dJ + i w eta N^t N dJ + B^t B dJ], with the bilinear
    shape functions, [J = gradN^T . element_points], its determinant [dJ]
    and [B = (1/dJ) . inv(J) . gradN^T], [inv(J)] the 2x2 cofactor
    formula. *)
Theorem build_local_Ke_quadrature (pts : pts4) (omega mu eta : R) :
  exists Ke_local, _build_local_Ke pts omega mu eta = PyRet Ke_local /\
    forall k l, Ke_local k l = local_Ke_spec pts omega mu eta k l.
Proof.
  eexists; split; [reflexivity|]. intros k l.
  rewrite local_Ke_acc_points.
  unfold local_Ke_spec, gauss_1d, point, integration_point, isq3.
  cbn -[Ke_point_spec].
  apply C_ext; simpl; ring.
Qed.

(** ** Assembly lemmas *)

Lemma trip_sum_app T1 T2 i j :
  trip_sum (T1 ++ T2) i j = Cadd (trip_sum T1 i j) (trip_sum T2 i j).
Proof.
  induction T1 as [|t T1 IH]; simpl.
  - apply C_ext; simpl; ring.
  - rewrite IH. apply C_ext; simpl; ring.
Qed.

Lemma trip_sum_flat_map {A} (g : A -> list (nat * nat * C)) L i j :
  trip_sum (flat_map g L) i j =
  fold_right (fun x acc => Cadd (trip_sum (g x) i j) acc) C0 L.
Proof.
  induction L as [|x L IH]; simpl; [reflexivity|].
  rewrite trip_sum_app, IH. reflexivity.
Qed.

Lemma trip_sum_element conn Kl i j :
  trip_sum (element_triplets conn Kl) i j = elem_entry conn Kl i j.
Proof.
  destruct conn as [[[a b] c] d].
  unfold trip_sum, element_triplets, elem_entry. simpl.
  apply C_ext; simpl; ring.
Qed.

Lemma py_mapM_ret {A B} (f : A -> py_result B) (g : A -> B) L :
  (forall x, f x = PyRet (g x)) -> py_mapM f L = PyRet (map g L).
Proof.
  intros Hf. induction L as [|x L IH]; simpl; [reflexivity|].
  rewrite Hf, IH. reflexivity.
Qed.

Lemma kernels_mapM mesh omega :
  py_mapM (fun '(conn, points, m, e) =>
             Kl <- _build_local_Ke points omega m e;; PyRet (conn, Kl))
          (elements_K mesh) =
  PyRet (map (fun '(conn, points, m, e) => (conn, local_Ke_acc points omega m e))
             (elements_K mesh)).
Proof. apply py_mapM_ret. intros [[[c p] m] e]. reflexivity. Qed.

(** The assembled global matrix, entry by entry. *)
Lemma assembly_K_entry mesh omega K :
  _assembly_K mesh omega = PyRet K ->
  coo_shape K = n_points mesh /\
  forall i j, coo_get K i j = assembled_entry mesh omega i j.
Proof.
  unfold _assembly_K. rewrite kernels_mapM. simpl. unfold coo_matrix.
  destruct forallb; intros H; inversion H; subst; clear H.
  split; [reflexivity|]. intros i j.
  unfold coo_get; simpl. rewrite trip_sum_flat_map.
  unfold assembled_entry.
  induction (elements_K mesh) as [|[[[c p] m] e] L IH]; simpl; [reflexivity|].
  rewrite IH, trip_sum_element. reflexivity.
Qed.

Lemma add_at_spec f p v f' :
  add_at f p v = PyRet f' ->
  List.length f' = List.length f /\
  forall q, nth q f' 0 = nth q f 0 + (if Nat.eqb p q then v else 0).
Proof.
  revert p f'. induction f as [|x t IH]; intros p f' H; simpl in H.
  - destruct p; discriminate.
  - destruct p as [|p].
    + inversion H; subst. split; [reflexivity|].
      intros [|q]; simpl; ring.
    + destruct (add_at t p v) as [t'|] eqn:E; simpl in H; [|discriminate].
      inversion H; subst. destruct (IH _ _ E) as [Hl Hn].
      split; [simpl; rewrite Hl; reflexivity|].
      intros [|q]; simpl; [ring|]. apply Hn.
Qed.

Lemma scatter_f_spec slots fl f f' :
  scatter_f slots fl f = PyRet f' ->
  List.length f' = List.length f /\
  forall q, nth q f' 0 =
    nth q f 0 + fold_right (fun '(k, p) acc => (if Nat.eqb p q then fl k else 0) + acc)
                           0 slots.
Proof.
  revert f. induction slots as [|[k p] rest IH]; intros f H; simpl in H.
  - inversion H; subst. split; [reflexivity|]. intros q; simpl; ring.
  - destruct (add_at f p (fl k)) as [f1|] eqn:E; simpl in H; [|discriminate].
    destruct (add_at_spec _ _ _ _ E) as [Hl1 Hn1].
    destruct (IH _ H) as [Hl2 Hn2].
    split; [congruence|]. intros q. rewrite Hn2, Hn1. simpl. ring.
Qed.

Lemma scatter_slots_load conn fl q :
  fold_right (fun '(k, p) acc => (if Nat.eqb p q then fl k else 0) + acc)
             0 (enumerate (conn_nodes conn)) = elem_load conn fl q.
Proof.
  destruct conn as [[[a b] c] d]. unfold elem_load. simpl. ring.
Qed.

Lemma assembly_f_loop_spec src elems f f' :
  assembly_f_loop src elems f = PyRet f' ->
  List.length f' = List.length f /\
  forall q, nth q f' 0 =
    nth q f 0 + fold_right (fun '(eid, (conn, points)) acc =>
                              elem_load conn (local_f_acc points (src eid)) q + acc)
                           0 elems.
Proof.
  revert f. induction elems as [|[eid [conn points]] rest IH]; intros f H; simpl in H.
  - inversion H; subst. split; [reflexivity|]. intros q; simpl; ring.
  - destruct (scatter_f _ _ f) as [f1|] eqn:E; simpl in H; [|discriminate].
    destruct (scatter_f_spec _ _ _ _ E) as [Hl1 Hn1].
    destruct (IH _ H) as [Hl2 Hn2].
    split; [congruence|]. intros q. rewrite Hn2, Hn1, scatter_slots_load. simpl. ring.
Qed.

(** The assembled global load vector, entry by entry. *)
Lemma assembly_f_entry mesh f :
  _assembly_f mesh = PyRet f ->
  List.length f = n_points mesh /\ forall p, nth p f 0 = assembled_load mesh p.
Proof.
  unfold _assembly_f. intros H.
  destruct (assembly_f_loop_spec _ _ _ _ H) as [Hl Hn].
  rewrite repeat_length in Hl. split; [exact Hl|].
  intros p. rewrite Hn, nth_repeat. unfold assembled_load. ring.
Qed.

(** ** Symmetry *)

Lemma rsum_swap n m (F : nat -> nat -> R) :
  rsum n (fun k => rsum m (fun l => F k l)) = rsum m (fun l => rsum n (fun k => F k l)).
Proof.
  induction n; simpl.
  - induction m; simpl; [reflexivity | rewrite <- IHm; ring].
  - rewrite IHn, <- rsum_add. reflexivity.
Qed.

Lemma csum_swap n m (F : nat -> nat -> C) :
  csum n (fun k => csum m (fun l => F k l)) = csum m (fun l => csum n (fun k => F k l)).
Proof.
  apply C_ext; rewrite ?re_csum, ?im_csum;
  [ transitivity (rsum n (fun k => rsum m (fun l => re (F k l))))
  | transitivity (rsum n (fun k => rsum m (fun l => im (F k l)))) ];
  try (apply rsum_ext; intros; rewrite ?re_csum, ?im_csum; reflexivity);
  rewrite rsum_swap; apply rsum_ext; intros; rewrite ?re_csum, ?im_csum; reflexivity.
Qed.

Lemma elem_entry_sym conn (Kl : mat4) i j :
  (forall k l, Kl k l = Kl l k) -> elem_entry conn Kl i j = elem_entry conn Kl j i.
Proof.
  intros H. unfold elem_entry. rewrite csum_swap.
  apply csum_ext; intros k _. apply csum_ext; intros l _.
  rewrite Bool.andb_comm, H. reflexivity.
Qed.

Lemma assembled_entry_sym mesh omega i j :
  assembled_entry mesh omega i j = assembled_entry mesh omega j i.
Proof.
  unfold assembled_entry.
  induction (elements_K mesh) as [|[[[c p] m] e] L IH]; simpl; [reflexivity|].
  rewrite IH, elem_entry_sym; [reflexivity|]. apply local_Ke_acc_sym.
Qed.

(** C4: the assembled global matrix is symmetric, [K[i,j] = K[j,i]] for all
    node indices, and so is every local matrix returned by
    [_build_local_Ke]. *)
Theorem assembly_K_symmetric (mesh : Mesh) (omega : R) (K : coo) :
  _assembly_K mesh omega = PyRet K ->
  (forall i j, coo_get K i j = coo_get K j i) /\
  (forall pts omega' mu' eta', exists Ke_local,
      _build_local_Ke pts omega' mu' eta' = PyRet Ke_local /\
      forall k l, Ke_local k l = Ke_local l k).
Proof.
  intros HK. destruct (assembly_K_entry _ _ _ HK) as [_ Hent]. split.
  - intros i j. rewrite !Hent. apply assembled_entry_sym.
  - intros pts omega' mu' eta'. eexists; split; [reflexivity|].
    apply local_Ke_acc_sym.
Qed.

Lemma assembly_K_symmetric_witness :
  exists K, _assembly_K two_elem_mesh 1 = PyRet K /\
    (forall i j, coo_get K i j = coo_get K j i).
Proof.
  eexists. split; [reflexivity|].
  apply (assembly_K_symmetric two_elem_mesh 1). reflexivity.
Defined.

(** ** Additive assembly *)

(** C6: each global matrix entry [(i, j)] is the sum, over all elements and
    all ordered slot pairs [(k, l)] with [connectivity[k] = i] and
    [connectivity[l] = j], of the local entries (duplicates are summed);
    each global load entry [p] is the sum of the local load entries of the
    element slots mapped to [p]. *)
Theorem assembly_superposition (mesh : Mesh) (omega : R) (K : coo) (f : list R) :
  _assembly_K mesh omega = PyRet K ->
  _assembly_f mesh = PyRet f ->
  coo_shape K = n_points mesh /\ List.length f = n_points mesh /\
  (forall i j, coo_get K i j = assembled_entry mesh omega i j) /\
  (forall p, nth p f 0 = assembled_load mesh p).
Proof.
  intros HK Hf.
  destruct (assembly_K_entry _ _ _ HK) as [HsK HeK].
  destruct (assembly_f_entry _ _ Hf) as [Hsf Hef].
  repeat split; assumption.
Qed.

Lemma assembly_superposition_witness :
  exists K f, _assembly_K two_elem_mesh 1 = PyRet K /\
    _assembly_f two_elem_mesh = PyRet f /\
    coo_get K 1%nat 4%nat = assembled_entry two_elem_mesh 1 1%nat 4%nat /\
    nth 1 f 0 = assembled_load two_elem_mesh 1%nat.
Proof.
  eexists; eexists. split; [reflexivity|]. split; [reflexivity|].
  destruct (assembly_superposition two_elem_mesh 1 _ _ eq_refl eq_refl)
    as [_ [_ [HK Hf]]].
  split; [apply HK | apply Hf].
Defined.

(** ** Empty meshes *)

(** C8: with zero elements, assembly succeeds and yields the all-zero
    [n_points x n_points] matrix and the all-zero vector of length
    [n_points]. *)
Theorem assembly_no_elements (mesh : Mesh) (omega : R) :
  connectivity_list mesh = [] ->
  (exists K, _assembly_K mesh omega = PyRet K /\ coo_shape K = n_points mesh /\
             forall i j, coo_get K i j = C0) /\
  _assembly_f mesh = PyRet (repeat 0 (n_points mesh)).
Proof.
  intros Hc. split.
  - unfold _assembly_K, elements_K. rewrite Hc. simpl.
    eexists; split; [reflexivity|]. split; [reflexivity|].
    intros i j. reflexivity.
  - unfold _assembly_f, elements_f. rewrite Hc. reflexivity.
Qed.

Lemma assembly_no_elements_witness :
  connectivity_list empty_mesh = [] /\
  _assembly_f empty_mesh = PyRet (repeat 0 (n_points empty_mesh)).
Proof.
  split; [reflexivity|]. apply (assembly_no_elements empty_mesh 1). reflexivity.
Defined.

(** ** The complex-to-real transform *)

Section Transform.
Variables (K : coo) (f : list R).
Let n := coo_shape K.
Let Ke := fst (convert_complex_linear_system_to_real K f).
Let fe := snd (convert_complex_linear_system_to_real K f).

Lemma Ke_top_left r c : (r < n)%nat -> (c < n)%nat -> Ke r c = re (coo_get K r c).
Proof.
  intros Hr Hc. unfold Ke; simpl; unfold convert_matrix; cbv beta zeta. fold n.
  rewrite (proj2 (Nat.ltb_lt r n) Hr), (proj2 (Nat.ltb_lt c n) Hc). reflexivity.
Qed.

Lemma Ke_top_right r c : (r < n)%nat -> (c < n)%nat -> Ke r (n + c)%nat = - im (coo_get K r c).
Proof.
  intros Hr Hc. unfold Ke; simpl; unfold convert_matrix; cbv beta zeta. fold n.
  rewrite (proj2 (Nat.ltb_lt r n) Hr), (proj2 (Nat.ltb_ge (n + c) n) ltac:(lia)).
  replace (n + c - n)%nat with c by lia. reflexivity.
Qed.

Lemma Ke_bottom_left r c : (r < n)%nat -> (c < n)%nat -> Ke (n + r)%nat c = im (coo_get K r c).
Proof.
  intros Hr Hc. unfold Ke; simpl; unfold convert_matrix; cbv beta zeta. fold n.
  rewrite (proj2 (Nat.ltb_ge (n + r) n) ltac:(lia)), (proj2 (Nat.ltb_lt c n) Hc).
  replace (n + r - n)%nat with r by lia. reflexivity.
Qed.

Lemma Ke_bottom_right r c :
  (r < n)%nat -> (c < n)%nat -> Ke (n + r)%nat (n + c)%nat = re (coo_get K r c).
Proof.
  intros Hr Hc. unfold Ke; simpl; unfold convert_matrix; cbv beta zeta. fold n.
  rewrite (proj2 (Nat.ltb_ge (n + r) n) ltac:(lia)), (proj2 (Nat.ltb_ge (n + c) n) ltac:(lia)).
  replace (n + r - n)%nat with r by lia. replace (n + c - n)%nat with c by lia.
  reflexivity.
Qed.

Lemma fe_top r : (r < n)%nat -> fe r = nth r f 0.
Proof.
  intros Hr. unfold fe; simpl; unfold convert_rhs. fold n. rewrite (proj2 (Nat.ltb_lt r n) Hr). reflexivity.
Qed.

Lemma fe_bottom r : fe (n + r)%nat = 0.
Proof.
  unfold fe; simpl; unfold convert_rhs. fold n. rewrite (proj2 (Nat.ltb_ge (n + r) n) ltac:(lia)). reflexivity.
Qed.

Lemma rmatvec_top ye r :
  (r < n)%nat ->
  rmatvec Ke (2 * n) ye r =
  rsum n (fun c => re (coo_get K r c) * nth c ye 0 - im (coo_get K r c) * nth (n + c) ye 0).
Proof.
  intros Hr. unfold rmatvec. replace (2 * n)%nat with (n + n)%nat by lia.
  rewrite rsum_split.
  rewrite (rsum_ext n (fun c => Ke r c * nth c ye 0)
             (fun c => re (coo_get K r c) * nth c ye 0))
    by (intros c Hc; rewrite Ke_top_left by assumption; reflexivity).
  rewrite (rsum_ext n (fun c => Ke r (n + c)%nat * nth (n + c) ye 0)
             (fun c => - im (coo_get K r c) * nth (n + c) ye 0))
    by (intros c Hc; rewrite Ke_top_right by assumption; reflexivity).
  rewrite <- rsum_add. apply rsum_ext. intros; ring.
Qed.

Lemma rmatvec_bottom ye r :
  (r < n)%nat ->
  rmatvec Ke (2 * n) ye (n + r)%nat =
  rsum n (fun c => im (coo_get K r c) * nth c ye 0 + re (coo_get K r c) * nth (n + c) ye 0).
Proof.
  intros Hr. unfold rmatvec. replace (2 * n)%nat with (n + n)%nat by lia.
  rewrite rsum_split.
  rewrite (rsum_ext n (fun c => Ke (n + r)%nat c * nth c ye 0)
             (fun c => im (coo_get K r c) * nth c ye 0))
    by (intros c Hc; rewrite Ke_bottom_left by assumption; reflexivity).
  rewrite (rsum_ext n (fun c => Ke (n + r)%nat (n + c)%nat * nth (n + c) ye 0)
             (fun c => re (coo_get K r c) * nth (n + c) ye 0))
    by (intros c Hc; rewrite Ke_bottom_right by assumption; reflexivity).
  rewrite <- rsum_add. reflexivity.
Qed.

Lemma cmatvec_re x i :
  re (cmatvec K x i) =
  rsum n (fun j => re (coo_get K i j) * re (nth j x C0) - im (coo_get K i j) * im (nth j x C0)).
Proof. unfold cmatvec. rewrite re_csum. reflexivity. Qed.

Lemma cmatvec_im x i :
  im (cmatvec K x i) =
  rsum n (fun j => re (coo_get K i j) * im (nth j x C0) + im (coo_get K i j) * re (nth j x C0)).
Proof. unfold cmatvec. rewrite im_csum. reflexivity. Qed.

End Transform.

Lemma nth_map_seq {A} (g : nat -> A) m k d :
  (k < m)%nat -> nth k (map g (seq 0 m)) d = g k.
Proof.
  intros Hk. rewrite nth_indep with (d' := g 0%nat) by (rewrite length_map, length_seq; lia).
  rewrite map_nth, seq_nth by lia. reflexivity.
Qed.

Lemma extract_length (ye : list R) n :
  List.length ye = (2 * n)%nat -> (List.length ye / 2 = n)%nat.
Proof. intros ->. rewrite Nat.mul_comm. apply Nat.div_mul. lia. Qed.

Lemma nth_extract ye n j :
  List.length ye = (2 * n)%nat -> (j < n)%nat ->
  nth j (extract_complex_solution ye) C0 = mkC (nth j ye 0) (nth (n + j) ye 0).
Proof.
  intros Hl Hj. unfold extract_complex_solution. rewrite (extract_length ye n Hl).
  exact (nth_map_seq (fun i => mkC (nth i ye 0) (nth (n + i) ye 0)) n j C0 Hj).
Qed.

Lemma nth_embed (x : list C) c :
  (c < List.length x)%nat ->
  nth c (map re x ++ map im x) 0 = re (nth c x C0) /\
  nth (List.length x + c) (map re x ++ map im x) 0 = im (nth c x C0).
Proof.
  intros Hc. split.
  - rewrite app_nth1 by (rewrite length_map; lia).
    change 0 with (re C0) at 1. apply map_nth.
  - rewrite app_nth2 by (rewrite length_map; lia).
    rewrite length_map. replace (List.length x + c - List.length x)%nat with c by lia.
    change 0 with (im C0) at 1. apply map_nth.
Qed.

(** C1 (the transform and its inverse are modelled from the spec): the
    real system is the block matrix [[Kr, -Ki], [Ki, Kr]] with right-hand
    side [[f; 0]]; the extracted solution is [ye[0:n] + i ye[n:2n]]; every
    exact solution [ye] of the real system extracts to an exact solution
    [x] of [K x = f], and conversely every exact solution [x] is recovered
    from the real solution [[re x; im x]]. *)
Theorem complex_real_transform_exact (K : coo) (f : list R) :
  let n := coo_shape K in
  let Ke := fst (convert_complex_linear_system_to_real K f) in
  let fe := snd (convert_complex_linear_system_to_real K f) in
  (forall r c, (r < n)%nat -> (c < n)%nat ->
     Ke r c = re (coo_get K r c) /\ Ke r (n + c)%nat = - im (coo_get K r c) /\
     Ke (n + r)%nat c = im (coo_get K r c) /\ Ke (n + r)%nat (n + c)%nat = re (coo_get K r c)) /\
  (forall r, (r < n)%nat -> fe r = nth r f 0 /\ fe (n + r)%nat = 0) /\
  (forall ye, List.length ye = (2 * n)%nat ->
     List.length (extract_complex_solution ye) = n /\
     forall j, (j < n)%nat ->
       nth j (extract_complex_solution ye) C0 = mkC (nth j ye 0) (nth (n + j) ye 0)) /\
  (forall ye, List.length ye = (2 * n)%nat ->
     (forall r, (r < 2 * n)%nat -> rmatvec Ke (2 * n) ye r = fe r) ->
     forall i, (i < n)%nat -> cmatvec K (extract_complex_solution ye) i = RtoC (nth i f 0)) /\
  (forall x, List.length x = n ->
     (forall i, (i < n)%nat -> cmatvec K x i = RtoC (nth i f 0)) ->
     extract_complex_solution (map re x ++ map im x) = x /\
     forall r, (r < 2 * n)%nat -> rmatvec Ke (2 * n) (map re x ++ map im x) r = fe r).
Proof.
  intros n Ke fe. split; [|split; [|split; [|split]]].
  - intros r c Hr Hc. unfold Ke, n in *.
    rewrite Ke_top_left, Ke_top_right, Ke_bottom_left, Ke_bottom_right by assumption.
    repeat split.
  - intros r Hr. unfold fe, n in *. rewrite fe_top, fe_bottom by assumption. split; reflexivity.
  - intros ye Hl. split.
    + unfold extract_complex_solution. rewrite (extract_length ye n Hl).
      rewrite length_map, length_seq. reflexivity.
    + intros j Hj. apply nth_extract; assumption.
  - intros ye Hl Hsol i Hi. unfold Ke, fe, n in *. apply C_ext; simpl.
    + rewrite cmatvec_re, <- (fe_top K f i Hi), <- (Hsol i ltac:(lia)), rmatvec_top by assumption.
      apply rsum_ext. intros j Hj. rewrite (nth_extract ye _ j Hl Hj). simpl. ring.
    + rewrite cmatvec_im, <- (fe_bottom K f i), <- (Hsol (coo_shape K + i)%nat ltac:(lia)).
      rewrite rmatvec_bottom by assumption.
      apply rsum_ext. intros j Hj. rewrite (nth_extract ye _ j Hl Hj). simpl. ring.
  - intros x Hl Hsol. split.
    + assert (Hl2 : List.length (map re x ++ map im x) = (2 * n)%nat)
        by (rewrite length_app, !length_map; lia).
      apply nth_ext with (d := C0) (d' := C0).
      * unfold extract_complex_solution. rewrite (extract_length _ n Hl2).
        rewrite length_map, length_seq. auto.
      * intros j Hj. unfold extract_complex_solution in Hj.
        rewrite (extract_length _ n Hl2), length_map, length_seq in Hj.
        rewrite (nth_extract _ n j Hl2 Hj).
        destruct (nth_embed x j ltac:(lia)) as [E1 E2]. rewrite Hl in E2.
        rewrite E1, E2. destruct (nth j x C0); reflexivity.
    + intros r Hr. unfold Ke, fe, n in *.
      destruct (Nat.lt_ge_cases r (coo_shape K)) as [Hlt|Hge].
      * rewrite rmatvec_top, fe_top by assumption.
        transitivity (re (cmatvec K x r)); [|rewrite Hsol by assumption; reflexivity].
        rewrite cmatvec_re. apply rsum_ext. intros j Hj.
        destruct (nth_embed x j ltac:(lia)) as [E1 E2]. rewrite Hl in E2.
        rewrite E1, E2. reflexivity.
      * replace r with (coo_shape K + (r - coo_shape K))%nat by lia.
        rewrite rmatvec_bottom, fe_bottom by lia.
        transitivity (im (cmatvec K x (r - coo_shape K))); [|rewrite Hsol by lia; reflexivity].
        rewrite cmatvec_im. apply rsum_ext. intros j Hj.
        destruct (nth_embed x j ltac:(lia)) as [E1 E2]. rewrite Hl in E2.
        rewrite E1, E2. ring.
Qed.

(** ** Element kernels: orientation and purity *)

Lemma J_spec_mirror_x pts r s a :
  J_spec (mirror pts) r s a 0%nat = - J_spec pts r s a 0%nat.
Proof. unfold J_spec, mirror. simpl. ring. Qed.

Lemma J_spec_mirror_y pts r s a :
  J_spec (mirror pts) r s a 1%nat = J_spec pts r s a 1%nat.
Proof. unfold J_spec, mirror. simpl. reflexivity. Qed.

Lemma dJ_spec_mirror pts r s : dJ_spec (mirror pts) r s = - dJ_spec pts r s.
Proof.
  unfold dJ_spec. rewrite !J_spec_mirror_x, !J_spec_mirror_y. ring.
Qed.

Lemma dJ_at_mirror pts i : dJ_at (mirror pts) i = - dJ_at pts i.
Proof.
  unfold dJ_at. destruct (point i) as [r s]. exact (dJ_spec_mirror pts r s).
Qed.

Lemma Ke_point_spec_mirror pts omega mu eta r s k l :
  Ke_point_spec (mirror pts) omega mu eta r s k l =
  Cscale (-1) (Ke_point_spec pts omega mu eta r s k l).
Proof.
  unfold Ke_point_spec, B_spec, invJ_spec.
  rewrite !dJ_spec_mirror, !J_spec_mirror_x, !J_spec_mirror_y, Rinv_opp.
  apply C_ext; simpl; ring.
Qed.

Lemma local_Ke_acc_mirror pts omega mu eta k l :
  local_Ke_acc (mirror pts) omega mu eta k l =
  Cscale (-1) (local_Ke_acc pts omega mu eta k l).
Proof.
  rewrite !local_Ke_acc_points.
  rewrite (csum_ext 4 _ _ (fun i _ => Ke_point_spec_mirror pts omega mu eta _ _ k l)).
  apply C_ext; simpl; rewrite ?re_csum, ?im_csum; simpl; ring.
Qed.

Lemma local_f_acc_mirror pts S_e k :
  local_f_acc (mirror pts) S_e k = - local_f_acc pts S_e k.
Proof.
  rewrite !local_f_acc_closed. unfold f_inc.
  simpl. rewrite !dJ_at_mirror. ring.
Qed.

Lemma dJ_spec_square x0 r s : dJ_spec (square_at x0) r s = 1 / 4.
Proof. unfold dJ_spec, J_spec, square_at. simpl. field. Qed.

(** C2 fails: the mirrored unit square has [dJ = -1/4] at every
    integration point, yet both kernels return a value and raise no
    degenerate-element error. *)
Lemma inverted_element_not_rejected :
  ~ (forall pts omega mu eta S_e,
       (exists i, (i < 4)%nat /\ dJ_at pts i <= 0) ->
       _build_local_Ke pts omega mu eta = PyRaise DegenerateElement /\
       _build_local_f pts S_e = PyRaise DegenerateElement).
Proof.
  intros H.
  assert (Hd : dJ_at (mirror (square_at 0)) 0%nat <= 0).
  { rewrite dJ_at_mirror. unfold dJ_at. simpl.
    change (det2 (jac (square_at 0) (- isq3) (- isq3)))
      with (dJ_spec (square_at 0) (- isq3) (- isq3)).
    rewrite dJ_spec_square. lra. }
  assert (Hex : exists i, (i < 4)%nat /\ dJ_at (mirror (square_at 0)) i <= 0)
    by (exists 0%nat; split; [lia | exact Hd]).
  destruct (H (mirror (square_at 0)) 1 1 0 1 Hex) as [HK _].
  discriminate HK.
Qed.

(** C2 (as amended): the kernels contain no Jacobian check and never raise;
    they return the quadrature values for every element, whatever the sign
    of [dJ]. Mirroring an element flips the sign of [dJ] at every
    integration point, and the kernels then return the negated local
    matrix and load vector. *)
Theorem kernels_accept_any_jacobian :
  (forall pts omega mu eta, exists Ke_local,
     _build_local_Ke pts omega mu eta = PyRet Ke_local) /\
  (forall pts S_e, exists f_local, _build_local_f pts S_e = PyRet f_local) /\
  (forall pts omega mu eta S_e,
     (forall i, dJ_at (mirror pts) i = - dJ_at pts i) /\
     (forall k l, local_Ke_acc (mirror pts) omega mu eta k l =
                  Cscale (-1) (local_Ke_acc pts omega mu eta k l)) /\
     (forall k, local_f_acc (mirror pts) S_e k = - local_f_acc pts S_e k)).
Proof.
  split; [|split].
  - intros. eexists. reflexivity.
  - intros. eexists. reflexivity.
  - intros pts omega mu eta S_e. split; [|split].
    + apply dJ_at_mirror.
    + apply local_Ke_acc_mirror.
    + apply local_f_acc_mirror.
Qed.

Lemma J_spec_contents pts pts' r s a b :
  (forall k b', (k < 4)%nat -> (b' < 2)%nat -> pts k b' = pts' k b') ->
  (b < 2)%nat -> J_spec pts r s a b = J_spec pts' r s a b.
Proof.
  intros H Hb. unfold J_spec. apply rsum_ext. intros k Hk. rewrite H by lia. reflexivity.
Qed.

Lemma Ke_point_spec_contents pts pts' omega mu eta r s k l :
  (forall k b, (k < 4)%nat -> (b < 2)%nat -> pts k b = pts' k b) ->
  Ke_point_spec pts omega mu eta r s k l = Ke_point_spec pts' omega mu eta r s k l.
Proof.
  intros H.
  unfold Ke_point_spec, B_spec, invJ_spec, dJ_spec.
  rewrite !(J_spec_contents pts pts' r s _ 0%nat H) by lia.
  rewrite !(J_spec_contents pts pts' r s _ 1%nat H) by lia.
  reflexivity.
Qed.

Lemma f_inc_contents pts pts' S_e i k :
  (forall k b, (k < 4)%nat -> (b < 2)%nat -> pts k b = pts' k b) ->
  f_inc pts S_e i k = f_inc pts' S_e i k.
Proof.
  intros H. unfold f_inc, dJ_at. destruct (point i) as [r s].
  change (det2 (jac pts r s)) with (dJ_spec pts r s).
  change (det2 (jac pts' r s)) with (dJ_spec pts' r s).
  unfold dJ_spec.
  rewrite !(J_spec_contents pts pts' r s _ 0%nat H) by lia.
  rewrite !(J_spec_contents pts pts' r s _ 1%nat H) by lia.
  reflexivity.
Qed.

(** ** The kernels over the heap *)

Lemma mbind_ret {A B} (m : PyM A) (k : A -> PyM B) h a h' :
  m h = (PyRet a, h') -> mbind m k h = k a h'.
Proof. intros E. unfold mbind. rewrite E. reflexivity. Qed.

Lemma heap_set_same h p a : hp_obj (heap_set h p a) p = a.
Proof. simpl. rewrite Nat.eqb_refl. reflexivity. Qed.

Lemma heap_set_other h p a q : q <> p -> hp_obj (heap_set h p a) q = hp_obj h q.
Proof. intros H. simpl. apply Nat.eqb_neq in H. rewrite H. reflexivity. Qed.

Lemma heap_alloc_new h a : hp_obj (heap_alloc h a) (hp_next h) = a.
Proof. simpl. rewrite Nat.eqb_refl. reflexivity. Qed.

Lemma heap_alloc_old h a q : q <> hp_next h -> hp_obj (heap_alloc h a) q = hp_obj h q.
Proof. intros H. simpl. apply Nat.eqb_neq in H. rewrite H. reflexivity. Qed.

Lemma setitem_ok h p rows cols d i j v :
  hp_obj h p = NdFloat rows cols d -> (i < rows)%nat -> (j < cols)%nat ->
  setitem p i j v h = (PyRet tt, heap_set h p (NdFloat rows cols (upd2 d i j v))).
Proof.
  intros Hp Hi Hj. unfold setitem, mbind, load. rewrite Hp.
  apply Nat.ltb_lt in Hi, Hj. rewrite Hi, Hj. reflexivity.
Qed.

Lemma load_float_ok h p rows cols d :
  hp_obj h p = NdFloat rows cols d -> load_float p h = (PyRet (rows, cols, d), h).
Proof. intros Hp. unfold load_float, mbind, load. rewrite Hp. reflexivity. Qed.

Lemma load_complex_ok h p rows cols d :
  hp_obj h p = NdComplex rows cols d -> load_complex p h = (PyRet d, h).
Proof. intros Hp. unfold load_complex, mbind, load. rewrite Hp. reflexivity. Qed.

Lemma iadd_float_ok h p rows cols d Y :
  hp_obj h p = NdFloat rows cols d ->
  iadd_float p Y h = (PyRet tt, heap_set h p (NdFloat rows cols (fun a b => d a b + Y a b))).
Proof. intros Hp. unfold iadd_float, mbind, load. rewrite Hp. reflexivity. Qed.

Lemma iadd_complex_ok h p rows cols d Y :
  hp_obj h p = NdComplex rows cols d ->
  iadd_complex p Y h =
    (PyRet tt, heap_set h p (NdComplex rows cols (fun a b => Cadd (d a b) (Y a b)))).
Proof. intros Hp. unfold iadd_complex, mbind, load. rewrite Hp. reflexivity. Qed.

(** The row [N] after the four assignments of an iteration. *)
Lemma upd2_N (Nd : nat -> nat -> R) r s k : (k < 4)%nat ->
  upd2 (upd2 (upd2 (upd2 Nd 0 0 ((1 - r) * (1 - s) / 4)) 0 1 ((1 + r) * (1 - s) / 4))
          0 2 ((1 + r) * (1 + s) / 4)) 0 3 ((1 - r) * (1 + s) / 4) 0%nat k = shape_N r s k.
Proof. intros Hk. destruct k as [|[|[|[|k]]]]; [reflexivity..|lia]. Qed.

Ltac heap_get :=
  repeat first [ rewrite heap_set_same | rewrite heap_set_other by lia
               | rewrite heap_alloc_new | rewrite heap_alloc_old by (simpl; lia) ].

Ltac heap_step lem :=
  erewrite mbind_ret; [cbv beta | eapply lem; heap_get; first [eassumption | reflexivity | lia]].

Lemma ke_body_heap_step ep nA mA cA kA omega mu eta pts i h Nd Md Cd Kd :
  ep <> nA -> ep <> mA -> ep <> cA -> ep <> kA -> nA <> mA -> nA <> cA -> nA <> kA ->
  mA <> cA -> mA <> kA -> cA <> kA ->
  hp_obj h ep = NdFloat 4 2 pts ->
  hp_obj h nA = NdFloat 1 4 Nd -> hp_obj h mA = NdFloat 4 4 Md ->
  hp_obj h cA = NdComplex 4 4 Cd -> hp_obj h kA = NdFloat 4 4 Kd ->
  exists h' Nd' Md' Cd' Kd',
    ke_body_heap ep nA mA cA kA omega mu eta i h = (PyRet tt, h') /\
    hp_next h' = hp_next h /\
    (forall q, q <> nA -> q <> mA -> q <> cA -> q <> kA -> hp_obj h' q = hp_obj h q) /\
    hp_obj h' nA = NdFloat 1 4 Nd' /\ hp_obj h' mA = NdFloat 4 4 Md' /\
    hp_obj h' cA = NdComplex 4 4 Cd' /\ hp_obj h' kA = NdFloat 4 4 Kd' /\
    (forall k l, (k < 4)%nat -> (l < 4)%nat ->
       Md' k l = Md k l + M_inc pts omega mu i k l /\
       Cd' k l = Cadd (Cd k l) (C_inc pts omega eta i k l) /\
       Kd' k l = Kd k l + K_inc pts i k l).
Proof.
  intros D1 D2 D3 D4 D5 D6 D7 D8 D9 D10 Hep HN HM HC HK.
  unfold ke_body_heap. destruct (point i) as [r s] eqn:Ep. cbv iota.
  do 5 eexists. split.
  { heap_step setitem_ok. heap_step setitem_ok. heap_step setitem_ok.
    heap_step setitem_ok. heap_step load_float_ok.
    erewrite mbind_ret; [cbv beta zeta | reflexivity].
    heap_step load_float_ok. heap_step iadd_float_ok. heap_step iadd_complex_ok.
    apply iadd_float_ok. heap_get. exact HK. }
  split; [reflexivity|]. split.
  { intros q Q1 Q2 Q3 Q4. heap_get. reflexivity. }
  split; [heap_get; reflexivity|]. split; [heap_get; reflexivity|].
  split; [heap_get; reflexivity|]. split; [heap_get; reflexivity|].
  intros k l Hk Hl. cbn [snd].
  unfold M_inc, C_inc, K_inc, NN_at, BB_at, dJ_at, B_mat. rewrite Ep.
  rewrite !upd2_N by assumption.
  split; [|split]; reflexivity.
Qed.

Lemma ke_loop_heap ep nA mA cA kA omega mu eta pts (js : list nat) :
  ep <> nA -> ep <> mA -> ep <> cA -> ep <> kA -> nA <> mA -> nA <> cA -> nA <> kA ->
  mA <> cA -> mA <> kA -> cA <> kA ->
  forall h (acc : ke_acc) Nd Md Cd Kd,
  hp_obj h ep = NdFloat 4 2 pts ->
  hp_obj h nA = NdFloat 1 4 Nd -> hp_obj h mA = NdFloat 4 4 Md ->
  hp_obj h cA = NdComplex 4 4 Cd -> hp_obj h kA = NdFloat 4 4 Kd ->
  (forall k l, (k < 4)%nat -> (l < 4)%nat ->
     Md k l = fst (fst acc) k l /\ Cd k l = snd (fst acc) k l /\ Kd k l = snd acc k l) ->
  exists h' Nd' Md' Cd' Kd',
    py_for js (ke_body_heap ep nA mA cA kA omega mu eta) h = (PyRet tt, h') /\
    hp_next h' = hp_next h /\
    (forall q, q <> nA -> q <> mA -> q <> cA -> q <> kA -> hp_obj h' q = hp_obj h q) /\
    hp_obj h' nA = NdFloat 1 4 Nd' /\ hp_obj h' mA = NdFloat 4 4 Md' /\
    hp_obj h' cA = NdComplex 4 4 Cd' /\ hp_obj h' kA = NdFloat 4 4 Kd' /\
    (forall k l, (k < 4)%nat -> (l < 4)%nat ->
       Md' k l = fst (fst (fold_left (ke_step pts omega mu eta) js acc)) k l /\
       Cd' k l = snd (fst (fold_left (ke_step pts omega mu eta) js acc)) k l /\
       Kd' k l = snd (fold_left (ke_step pts omega mu eta) js acc) k l).
Proof.
  intros D1 D2 D3 D4 D5 D6 D7 D8 D9 D10.
  induction js as [|i js IH]; intros h acc Nd Md Cd Kd Hep HN HM HC HK Hrel.
  - exists h, Nd, Md, Cd, Kd. simpl. repeat split; auto; apply Hrel; assumption.
  - destruct (ke_body_heap_step ep nA mA cA kA omega mu eta pts i h Nd Md Cd Kd
                D1 D2 D3 D4 D5 D6 D7 D8 D9 D10 Hep HN HM HC HK)
      as [h1 [Nd1 [Md1 [Cd1 [Kd1 [E1 [Hn1 [Hf1 [HN1 [HM1 [HC1 [HK1 Hv1]]]]]]]]]]]].
    assert (Hep1 : hp_obj h1 ep = NdFloat 4 2 pts) by (rewrite Hf1 by assumption; exact Hep).
    destruct (IH h1 (ke_step pts omega mu eta acc i) Nd1 Md1 Cd1 Kd1 Hep1 HN1 HM1 HC1 HK1)
      as [h2 [Nd2 [Md2 [Cd2 [Kd2 [E2 [Hn2 [Hf2 [HN2 [HM2 [HC2 [HK2 Hv2]]]]]]]]]]]].
    { intros k l Hk Hl. destruct (Hv1 k l Hk Hl) as [V1 [V2 V3]].
      destruct (Hrel k l Hk Hl) as [R1 [R2 R3]].
      destruct acc as [[M Cc] K]. simpl in *. rewrite V1, V2, V3, R1, R2, R3.
      split; [|split]; reflexivity. }
    exists h2, Nd2, Md2, Cd2, Kd2. split.
    { cbn [py_for]. rewrite (mbind_ret _ _ _ _ _ E1). exact E2. }
    split; [congruence|]. split.
    { intros q Q1 Q2 Q3 Q4. rewrite Hf2, Hf1 by assumption. reflexivity. }
    repeat split; try assumption; apply Hv2; assumption.
Qed.

Lemma f_body_heap_step ep nA fA S_e pts i h Nd Fd :
  ep <> nA -> ep <> fA -> nA <> fA ->
  hp_obj h ep = NdFloat 4 2 pts ->
  hp_obj h nA = NdFloat 1 4 Nd -> hp_obj h fA = NdFloat 4 1 Fd ->
  exists h' Nd' Fd',
    f_body_heap ep nA fA S_e i h = (PyRet tt, h') /\
    hp_next h' = hp_next h /\
    (forall q, q <> nA -> q <> fA -> hp_obj h' q = hp_obj h q) /\
    hp_obj h' nA = NdFloat 1 4 Nd' /\ hp_obj h' fA = NdFloat 4 1 Fd' /\
    (forall k, (k < 4)%nat -> Fd' k 0%nat = Fd k 0%nat + f_inc pts S_e i k).
Proof.
  intros D1 D2 D3 Hep HN HF.
  unfold f_body_heap. destruct (point i) as [r s] eqn:Ep. cbv iota.
  do 3 eexists. split.
  { heap_step setitem_ok. heap_step setitem_ok. heap_step setitem_ok.
    heap_step setitem_ok. heap_step load_float_ok.
    erewrite mbind_ret; [cbv beta zeta | reflexivity].
    heap_step load_float_ok.
    apply iadd_float_ok. heap_get. exact HF. }
  split; [reflexivity|]. split.
  { intros q Q1 Q2. heap_get. reflexivity. }
  split; [heap_get; reflexivity|]. split; [heap_get; reflexivity|].
  intros k Hk. cbn [snd].
  unfold f_inc, dJ_at. rewrite Ep. rewrite !upd2_N by assumption. reflexivity.
Qed.

Lemma f_loop_heap ep nA fA S_e pts (js : list nat) :
  ep <> nA -> ep <> fA -> nA <> fA ->
  forall h (acc : nat -> R) Nd Fd,
  hp_obj h ep = NdFloat 4 2 pts ->
  hp_obj h nA = NdFloat 1 4 Nd -> hp_obj h fA = NdFloat 4 1 Fd ->
  (forall k, (k < 4)%nat -> Fd k 0%nat = acc k) ->
  exists h' Nd' Fd',
    py_for js (f_body_heap ep nA fA S_e) h = (PyRet tt, h') /\
    hp_next h' = hp_next h /\
    (forall q, q <> nA -> q <> fA -> hp_obj h' q = hp_obj h q) /\
    hp_obj h' nA = NdFloat 1 4 Nd' /\ hp_obj h' fA = NdFloat 4 1 Fd' /\
    (forall k, (k < 4)%nat -> Fd' k 0%nat = fold_left (f_step pts S_e) js acc k).
Proof.
  intros D1 D2 D3.
  induction js as [|i js IH]; intros h acc Nd Fd Hep HN HF Hrel.
  - exists h, Nd, Fd. simpl. repeat split; auto.
  - destruct (f_body_heap_step ep nA fA S_e pts i h Nd Fd D1 D2 D3 Hep HN HF)
      as [h1 [Nd1 [Fd1 [E1 [Hn1 [Hf1 [HN1 [HF1 Hv1]]]]]]]].
    assert (Hep1 : hp_obj h1 ep = NdFloat 4 2 pts) by (rewrite Hf1 by assumption; exact Hep).
    destruct (IH h1 (f_step pts S_e acc i) Nd1 Fd1 Hep1 HN1 HF1)
      as [h2 [Nd2 [Fd2 [E2 [Hn2 [Hf2 [HN2 [HF2 Hv2]]]]]]]].
    { intros k Hk. rewrite Hv1, Hrel by assumption. reflexivity. }
    exists h2, Nd2, Fd2. split.
    { cbn [py_for]. rewrite (mbind_ret _ _ _ _ _ E1). exact E2. }
    split; [congruence|]. split.
    { intros q Q1 Q2. rewrite Hf2, Hf1 by assumption. reflexivity. }
    repeat split; assumption.
Qed.

Lemma build_local_Ke_heap_spec h ep pts omega mu eta :
  (ep < hp_next h)%nat -> hp_obj h ep = NdFloat 4 2 pts ->
  exists a h', build_local_Ke_heap ep omega mu eta h = (PyRet a, h') /\
    (forall q, (q < hp_next h)%nat -> hp_obj h' q = hp_obj h q) /\
    (hp_next h <= a)%nat /\
    exists Kd, hp_obj h' a = NdComplex 4 4 Kd /\
      forall k l, (k < 4)%nat -> (l < 4)%nat -> Kd k l = local_Ke_acc pts omega mu eta k l.
Proof.
  intros Hlt Hep. unfold build_local_Ke_heap.
  set (h4 := heap_alloc (heap_alloc (heap_alloc (heap_alloc h (NdFloat 1 4 (fun _ _ => 0)))
               (NdFloat 4 4 (fun _ _ => 0))) (NdComplex 4 4 (fun _ _ => C0)))
               (NdFloat 4 4 (fun _ _ => 0))).
  set (n := hp_next h) in *.
  assert (Hfr4 : forall q, (q < n)%nat -> hp_obj h4 q = hp_obj h q)
    by (intros q Hq; unfold h4; heap_get; reflexivity).
  destruct (ke_loop_heap ep n (S n) (S (S n)) (S (S (S n))) omega mu eta pts (seq 0 4))
    with (h := h4) (acc := ((fun _ _ => 0), (fun _ _ => C0), (fun _ _ => 0)) : ke_acc)
         (Nd := fun _ _ : nat => 0) (Md := fun _ _ : nat => 0) (Cd := fun _ _ : nat => C0)
         (Kd := fun _ _ : nat => 0)
    as [h' [Nd' [Md' [Cd' [Kd' [E [Hn [Hf [HN [HM [HC [HK Hv]]]]]]]]]]]];
    try lia.
  { rewrite Hfr4 by lia. exact Hep. }
  { unfold h4. heap_get. reflexivity. }
  { unfold h4. heap_get. reflexivity. }
  { unfold h4. heap_get. reflexivity. }
  { unfold h4. heap_get. reflexivity. }
  { intros k l _ _. split; [|split]; reflexivity. }
  eexists; eexists; split.
  { do 4 (erewrite mbind_ret; [cbv beta | reflexivity]).
    erewrite mbind_ret; [cbv beta | exact E].
    heap_step load_float_ok. heap_step load_complex_ok. heap_step load_float_ok.
    reflexivity. }
  assert (Hn' : hp_next h' = S (S (S (S n)))) by (rewrite Hn; reflexivity).
  split; [|split].
  - intros q Hq. rewrite heap_alloc_old by lia. rewrite Hf by lia. apply Hfr4. exact Hq.
  - lia.
  - eexists. split; [apply heap_alloc_new|].
    intros k l Hk Hl. cbn [snd]. unfold local_Ke_acc.
    destruct (Hv k l Hk Hl) as [V1 [V2 V3]].
    destruct (fold_left (ke_step pts omega mu eta) (seq 0 4)
                ((fun _ _ => 0), (fun _ _ => C0), (fun _ _ => 0)))
      as [[M C'] K] eqn:EF.
    simpl in V1, V2, V3. rewrite V1, V2, V3. reflexivity.
Qed.

Lemma build_local_f_heap_spec h ep pts S_e :
  (ep < hp_next h)%nat -> hp_obj h ep = NdFloat 4 2 pts ->
  exists a h', build_local_f_heap ep S_e h = (PyRet a, h') /\
    (forall q, (q < hp_next h)%nat -> hp_obj h' q = hp_obj h q) /\
    (hp_next h <= a)%nat /\
    exists Fd, hp_obj h' a = NdFloat 4 1 Fd /\
      forall k, (k < 4)%nat -> Fd k 0%nat = local_f_acc pts S_e k.
Proof.
  intros Hlt Hep. unfold build_local_f_heap.
  set (h2 := heap_alloc (heap_alloc h (NdFloat 1 4 (fun _ _ => 0)))
               (NdFloat 4 1 (fun _ _ => 0))).
  set (n := hp_next h) in *.
  assert (Hfr2 : forall q, (q < n)%nat -> hp_obj h2 q = hp_obj h q)
    by (intros q Hq; unfold h2; heap_get; reflexivity).
  destruct (f_loop_heap ep n (S n) S_e pts (seq 0 4))
    with (h := h2) (acc := fun _ : nat => 0) (Nd := fun _ _ : nat => 0)
         (Fd := fun _ _ : nat => 0)
    as [h' [Nd' [Fd' [E [Hn [Hf [HN [HF Hv]]]]]]]];
    try lia.
  { rewrite Hfr2 by lia. exact Hep. }
  { unfold h2. heap_get. reflexivity. }
  { unfold h2. heap_get. reflexivity. }
  { intros k _. reflexivity. }
  exists (S n), h'. split.
  { do 2 (erewrite mbind_ret; [cbv beta | reflexivity]).
    erewrite mbind_ret; [cbv beta | exact E]. reflexivity. }
  split; [|split].
  - intros q Hq. rewrite Hf by lia. apply Hfr2. exact Hq.
  - lia.
  - exists Fd'. split; [exact HF|]. intros k Hk. rewrite Hv by assumption. reflexivity.
Qed.

(** C9: the element kernels are pure. Run on a heap holding the caller's
    4x2 float array [element_points] (the input contract), each kernel
    returns normally (no failure mode at all, whatever the sign of [dJ]),
    leaves every object that existed before the call unchanged (the
    argument array and all global state), and returns a newly allocated
    array whose entries are the quadrature values [local_Ke_acc] or
    [local_f_acc]; these depend only on [omega], [mu], [eta], [S_e] and
    the 4x2 contents of [element_points], so two calls with equal
    arguments return equal results. *)
Theorem kernels_pure :
  (forall h ep pts omega mu eta,
     (ep < hp_next h)%nat -> hp_obj h ep = NdFloat 4 2 pts ->
     exists a h', build_local_Ke_heap ep omega mu eta h = (PyRet a, h') /\
       (forall q, (q < hp_next h)%nat -> hp_obj h' q = hp_obj h q) /\
       (hp_next h <= a)%nat /\
       exists Kd, hp_obj h' a = NdComplex 4 4 Kd /\
         forall k l, (k < 4)%nat -> (l < 4)%nat -> Kd k l = local_Ke_acc pts omega mu eta k l) /\
  (forall h ep pts S_e,
     (ep < hp_next h)%nat -> hp_obj h ep = NdFloat 4 2 pts ->
     exists a h', build_local_f_heap ep S_e h = (PyRet a, h') /\
       (forall q, (q < hp_next h)%nat -> hp_obj h' q = hp_obj h q) /\
       (hp_next h <= a)%nat /\
       exists Fd, hp_obj h' a = NdFloat 4 1 Fd /\
         forall k, (k < 4)%nat -> Fd k 0%nat = local_f_acc pts S_e k) /\
  (forall pts pts' omega mu eta,
     (forall k b, (k < 4)%nat -> (b < 2)%nat -> pts k b = pts' k b) ->
     forall k l, local_Ke_acc pts omega mu eta k l = local_Ke_acc pts' omega mu eta k l) /\
  (forall pts pts' S_e,
     (forall k b, (k < 4)%nat -> (b < 2)%nat -> pts k b = pts' k b) ->
     forall k, local_f_acc pts S_e k = local_f_acc pts' S_e k).
Proof.
  split; [|split; [|split]].
  - intros h ep pts omega mu eta. apply build_local_Ke_heap_spec.
  - intros h ep pts S_e. apply build_local_f_heap_spec.
  - intros pts pts' omega mu eta H k l. rewrite !local_Ke_acc_points.
    apply csum_ext. intros i _. apply Ke_point_spec_contents. exact H.
  - intros pts pts' S_e H k. rewrite !local_f_acc_closed.
    apply rsum_ext. intros i _. apply f_inc_contents. exact H.
Qed.

Lemma kernels_pure_witness :
  (0 < hp_next (one_element_heap (square_at 0)))%nat /\
  hp_obj (one_element_heap (square_at 0)) 0%nat = NdFloat 4 2 (square_at 0) /\
  (exists a h', build_local_Ke_heap 0 1 1 0 (one_element_heap (square_at 0)) = (PyRet a, h') /\
     (forall q, (q < hp_next (one_element_heap (square_at 0)))%nat ->
        hp_obj h' q = hp_obj (one_element_heap (square_at 0)) q) /\
     (hp_next (one_element_heap (square_at 0)) <= a)%nat /\
     exists Kd, hp_obj h' a = NdComplex 4 4 Kd /\
       forall k l, (k < 4)%nat -> (l < 4)%nat -> Kd k l = local_Ke_acc (square_at 0) 1 1 0 k l) /\
  (exists a h', build_local_f_heap 0 1 (one_element_heap (square_at 0)) = (PyRet a, h') /\
     (forall q, (q < hp_next (one_element_heap (square_at 0)))%nat ->
        hp_obj h' q = hp_obj (one_element_heap (square_at 0)) q) /\
     (hp_next (one_element_heap (square_at 0)) <= a)%nat /\
     exists Fd, hp_obj h' a = NdFloat 4 1 Fd /\
       forall k, (k < 4)%nat -> Fd k 0%nat = local_f_acc (square_at 0) 1 k).
Proof.
  assert (H0 : (0 < hp_next (one_element_heap (square_at 0)))%nat) by (simpl; lia).
  split; [exact H0|]. split; [reflexivity|]. split.
  - exact (proj1 kernels_pure (one_element_heap (square_at 0)) 0%nat (square_at 0) 1 1 0
             H0 eq_refl).
  - exact (proj1 (proj2 kernels_pure) (one_element_heap (square_at 0)) 0%nat (square_at 0) 1
             H0 eq_refl).
Defined.


(** ** Orchestration *)

Lemma prepare_ok mesh omega K f :
  _prepare_linear_system mesh omega = PyRet (K, f) ->
  _assembly_K mesh omega = PyRet K /\ _assembly_f mesh = PyRet f.
Proof.
  unfold _prepare_linear_system.
  destruct (_assembly_K mesh omega) as [K'|e]; simpl; [|discriminate].
  destruct (_assembly_f mesh) as [f'|e]; simpl; [|discriminate].
  intros H. inversion H. split; reflexivity.
Qed.

Lemma solve_field_length mesh omega P :
  solve_field mesh omega (PyRet P) -> List.length P = n_points mesh.
Proof.
  unfold solve_field.
  destruct (_prepare_linear_system mesh omega) as [[K f]|e] eqn:E; [|discriminate].
  destruct (prepare_ok _ _ _ _ E) as [HK _].
  destruct (assembly_K_entry _ _ _ HK) as [Hs _].
  simpl. intros [y [Hy HP]]. destruct Hy as [y Hl _|]; [|discriminate].
  simpl in HP. inversion HP; subst.
  unfold extract_complex_solution. rewrite (extract_length y (coo_shape K) Hl).
  rewrite length_map, length_seq. exact Hs.
Qed.

Lemma rmatvec_zero A m k r : rmatvec A m (repeat 0 k) r = 0.
Proof.
  unfold rmatvec. rewrite (rsum_ext m _ (fun _ => 0)).
  - clear. induction m; simpl; [reflexivity | rewrite IHm; ring].
  - intros c _. rewrite nth_repeat. ring.
Qed.

(** C3 (as amended): [solve_2d_hellmholtz] returns [None] on every
    successful solve; the solution field, of length [n_points], is passed
    only to the handlers registered for [on_after_solve_2d_hellmholtz], each
    invoked once in registration order with [P] and [mesh]. *)
Theorem solve_delivers_only_via_callbacks (mesh : Mesh) (omega : R)
  (callbacks : option registry) (out : py_result pyval * list call) (v : pyval) :
  solve_2d_hellmholtz mesh omega callbacks out ->
  fst out = PyRet v ->
  v = PyNone /\
  exists P, solve_field mesh omega (PyRet P) /\ List.length P = n_points mesh /\
    snd out = map (fun h => mkCall h P mesh)
                  (lookup_event on_after_solve
                     (match callbacks with None => [] | Some c => c end)).
Proof.
  intros [res [Hres ->]] Hv.
  destruct res as [P|e]; simpl in Hv; [|discriminate].
  inversion Hv; subst. split; [reflexivity|].
  exists P. split; [exact Hres|]. split; [apply (solve_field_length _ _ _ Hres)|].
  reflexivity.
Qed.

(** C10: omitting [callbacks] ([None]) behaves exactly as the empty
    registry: the outcomes are the same, no handler is invoked, every
    successful assembly and solve completes the call normally (returning
    [None]), and the only errors are those of assembly and of the linear
    solve. *)
Theorem solve_default_callbacks (mesh : Mesh) (omega : R) :
  (forall out, solve_2d_hellmholtz mesh omega None out <->
               solve_2d_hellmholtz mesh omega (Some []) out) /\
  (forall out, solve_2d_hellmholtz mesh omega None out -> snd out = []) /\
  (forall P, solve_field mesh omega (PyRet P) ->
             solve_2d_hellmholtz mesh omega None (PyRet PyNone, [])) /\
  (forall e calls, solve_2d_hellmholtz mesh omega None (PyRaise e, calls) ->
                   solve_field mesh omega (PyRaise e)).
Proof.
  split; [|split; [|split]].
  - intros out. split; intros H; exact H.
  - intros out [res [_ ->]]. destruct res; reflexivity.
  - intros P HP. exists (PyRet P). split; [exact HP | reflexivity].
  - intros e calls [res [Hres Hout]].
    destruct res as [P|e']; inversion Hout; subst. exact Hres.
Qed.

(** ** Linearity in the source term *)

Lemma local_f_acc_scale pts c S_e k :
  local_f_acc pts (c * S_e) k = c * local_f_acc pts S_e k.
Proof.
  rewrite !local_f_acc_closed, <- rsum_scale. apply rsum_ext. intros i _.
  unfold f_inc. destruct (point i). ring.
Qed.

Lemma add_at_scale c f p v :
  add_at (map (Rmult c) f) p (c * v) = py_map (map (Rmult c)) (add_at f p v).
Proof.
  revert p. induction f as [|x t IH]; intros p; simpl.
  - destruct p; reflexivity.
  - destruct p as [|p].
    + simpl. rewrite Rmult_plus_distr_l. reflexivity.
    + rewrite IH. destruct (add_at t p v); reflexivity.
Qed.

Lemma scatter_f_scale c slots fl fl' f :
  (forall k, fl' k = c * fl k) ->
  scatter_f slots fl' (map (Rmult c) f) = py_map (map (Rmult c)) (scatter_f slots fl f).
Proof.
  intros Hfl. revert f. induction slots as [|[k p] rest IH]; intros f; simpl; [reflexivity|].
  rewrite Hfl, add_at_scale. destruct (add_at f p (fl k)); simpl; [apply IH | reflexivity].
Qed.

Lemma assembly_f_loop_scale c src elems f :
  assembly_f_loop (fun e => c * src e) elems (map (Rmult c) f) =
  py_map (map (Rmult c)) (assembly_f_loop src elems f).
Proof.
  revert f. induction elems as [|[eid [conn points]] rest IH]; intros f; simpl; [reflexivity|].
  rewrite (scatter_f_scale c _ (local_f_acc points (src eid)))
    by (intros k; apply local_f_acc_scale).
  destruct (scatter_f _ _ f); simpl; [apply IH | reflexivity].
Qed.

Lemma repeat_zero_scale c n : repeat 0 n = map (Rmult c) (repeat 0 n).
Proof. induction n; simpl; [reflexivity | rewrite <- IHn, Rmult_0_r; reflexivity]. Qed.

Lemma assembly_f_scale c mesh :
  _assembly_f (scale_source c mesh) = py_map (map (Rmult c)) (_assembly_f mesh).
Proof.
  unfold _assembly_f. simpl. rewrite (repeat_zero_scale c (n_points mesh)) at 1.
  apply assembly_f_loop_scale.
Qed.

Lemma nth_scale c f r : nth r (map (Rmult c) f) 0 = c * nth r f 0.
Proof.
  revert r. induction f as [|x t IH]; intros [|r]; simpl; try ring. apply IH.
Qed.

Lemma rmatvec_diff A m y y' c r :
  rmatvec A m (map (fun j => nth j y' 0 - c * nth j y 0) (seq 0 m)) r =
  rmatvec A m y' r - c * rmatvec A m y r.
Proof.
  unfold rmatvec. rewrite <- rsum_scale.
  transitivity (rsum m (fun k => A r k * nth k y' 0 + - (c * (A r k * nth k y 0)))).
  - apply rsum_ext. intros k Hk.
    rewrite (nth_map_seq (fun j => nth j y' 0 - c * nth j y 0)) by assumption. ring.
  - rewrite rsum_add.
    rewrite (rsum_ext m (fun k => - (c * (A r k * nth k y 0)))
                        (fun k => -1 * (c * (A r k * nth k y 0)))) by (intros; ring).
    rewrite rsum_scale. ring.
Qed.

(** C7: scaling every element's source magnitude by [c] scales the local
    load vectors, the global load vector and, while the global matrix
    (unchanged) is nonsingular, the solved field by [c]. *)
Theorem source_scaling (mesh : Mesh) (omega c : R) :
  (forall pts S_e, exists f_local f_local',
     _build_local_f pts S_e = PyRet f_local /\
     _build_local_f pts (c * S_e) = PyRet f_local' /\
     forall k, f_local' k = c * f_local k) /\
  _assembly_K (scale_source c mesh) omega = _assembly_K mesh omega /\
  (forall f, _assembly_f mesh = PyRet f ->
             _assembly_f (scale_source c mesh) = PyRet (map (Rmult c) f)) /\
  (forall K P P',
     _assembly_K mesh omega = PyRet K ->
     nonsingular (convert_matrix K) (2 * coo_shape K) ->
     solve_field mesh omega (PyRet P) ->
     solve_field (scale_source c mesh) omega (PyRet P') ->
     P' = map (Cscale c) P).
Proof.
  split; [|split; [|split]].
  - intros pts S_e. do 2 eexists. split; [reflexivity|]. split; [reflexivity|].
    intros k. apply local_f_acc_scale.
  - reflexivity.
  - intros f Hf. rewrite assembly_f_scale, Hf. reflexivity.
  - intros K P P' HK Hns HP HP'.
    unfold solve_field in HP, HP'.
    unfold _prepare_linear_system in HP, HP'.
    replace (_assembly_K (scale_source c mesh) omega) with (_assembly_K mesh omega)
      in HP' by reflexivity.
    rewrite HK in HP, HP'. simpl in HP, HP'.
    rewrite assembly_f_scale in HP'.
    destruct (_assembly_f mesh) as [f|e]; simpl in HP, HP'; [|discriminate].
    destruct HP as [yr [Hy HPy]]. destruct Hy as [y Hl Hsol|]; [|discriminate].
    destruct HP' as [yr' [Hy' HPy']]. destruct Hy' as [y' Hl' Hsol'|]; [|discriminate].
    simpl in HPy, HPy'. inversion HPy; inversion HPy'; subst; clear HPy HPy'.
    replace (coo_shape K + (coo_shape K + 0))%nat with (2 * coo_shape K)%nat in * by lia.
    set (n := coo_shape K) in *.
    assert (Hy'y : forall j, (j < 2 * n)%nat -> nth j y' 0 = c * nth j y 0).
    { intros j Hj.
      assert (Hz := Hns (map (fun j => nth j y' 0 - c * nth j y 0) (seq 0 (2 * n)))
                        ltac:(rewrite length_map, length_seq; reflexivity)).
      assert (Hd : forall r, (r < 2 * n)%nat ->
                 rmatvec (convert_matrix K) (2 * n)
                   (map (fun j => nth j y' 0 - c * nth j y 0) (seq 0 (2 * n))) r = 0).
      { intros r Hr. rewrite rmatvec_diff, Hsol, Hsol' by assumption.
        unfold convert_rhs. fold n. destruct (Nat.ltb r n); [rewrite nth_scale|]; ring. }
      specialize (Hz Hd j Hj).
      rewrite (nth_map_seq (fun j => nth j y' 0 - c * nth j y 0)) in Hz by assumption.
      lra. }
    apply nth_ext with (d := C0) (d' := C0).
    + unfold extract_complex_solution.
      rewrite !length_map, !length_seq, Hl, Hl'. reflexivity.
    + intros j Hj. unfold extract_complex_solution in Hj.
      rewrite length_map, length_seq, (extract_length y' n Hl') in Hj.
      rewrite (nth_extract y' n j Hl' Hj).
      rewrite nth_indep with (d' := Cscale c C0)
        by (unfold extract_complex_solution; rewrite length_map, length_map, length_seq,
              (extract_length y n Hl); assumption).
      rewrite map_nth, (nth_extract y n j Hl Hj).
      rewrite !Hy'y by lia. reflexivity.
Qed.

(** ** A one-node system *)

Lemma Ke_point_spec_total pts omega mu eta r s :
  csum 4 (fun k => csum 4 (fun l => Ke_point_spec pts omega mu eta r s k l)) =
  mkC (- omega ^ 2 * mu * dJ_spec pts r s) (omega * eta * dJ_spec pts r s).
Proof.
  unfold Ke_point_spec, B_spec, invJ_spec. cbn -[J_spec dJ_spec].
  generalize (/ dJ_spec pts r s). intros idJ.
  apply C_ext; simpl; field.
Qed.

Lemma local_Ke_acc_total pts omega mu eta :
  csum 4 (fun k => csum 4 (fun l => local_Ke_acc pts omega mu eta k l)) =
  csum 4 (fun i => mkC (- omega ^ 2 * mu * dJ_spec pts (fst (point i)) (snd (point i)))
                       (omega * eta * dJ_spec pts (fst (point i)) (snd (point i)))).
Proof.
  transitivity (csum 4 (fun k => csum 4 (fun l => csum 4 (fun i =>
      Ke_point_spec pts omega mu eta (fst (point i)) (snd (point i)) k l)))).
  { apply csum_ext; intros k _; apply csum_ext; intros l _. apply local_Ke_acc_points. }
  transitivity (csum 4 (fun k => csum 4 (fun i => csum 4 (fun l =>
      Ke_point_spec pts omega mu eta (fst (point i)) (snd (point i)) k l)))).
  { apply csum_ext; intros k _. apply csum_swap. }
  rewrite csum_swap. apply csum_ext; intros i _. apply Ke_point_spec_total.
Qed.

Lemma elem_entry_one_node a Kl :
  elem_entry (a, a, a, a) Kl a a = csum 4 (fun k => csum 4 (fun l => Kl k l)).
Proof.
  unfold elem_entry. apply csum_ext; intros k Hk; apply csum_ext; intros l Hl.
  destruct k as [|[|[|[|k]]]]; try lia; destruct l as [|[|[|[|l]]]]; try lia;
    simpl; rewrite Nat.eqb_refl; reflexivity.
Qed.

Lemma one_node_K00 :
  assembled_entry one_node_mesh 1 0%nat 0%nat = mkC (-1) 0.
Proof.
  unfold assembled_entry. cbn [elements_K one_node_mesh connectivity_list
    points_in_elements mu eta combine fold_right].
  rewrite elem_entry_one_node, local_Ke_acc_total.
  unfold point, integration_point. cbn -[dJ_spec]. rewrite !dJ_spec_square.
  apply C_ext; simpl; field.
Qed.

Lemma one_node_f0 : assembled_load one_node_mesh 0%nat = 1.
Proof.
  unfold assembled_load, elements_f, enumerate. cbn [one_node_mesh connectivity_list
    points_in_elements combine fold_right List.length seq source_at_element].
  unfold elem_load. simpl. rewrite !local_f_acc_closed. unfold f_inc, dJ_at.
  unfold point, integration_point. simpl.
  change (det2 (jac (square_at 0) ?r ?s)) with (dJ_spec (square_at 0) r s).
  rewrite !dJ_spec_square. unfold weight, w. simpl nth. field.
Qed.

Lemma one_node_solve c K f :
  _assembly_K one_node_mesh 1 = PyRet K ->
  _assembly_f one_node_mesh = PyRet f ->
  nonsingular (convert_matrix K) (2 * coo_shape K) /\
  forall y, (forall r, (r < 2)%nat -> nth r y 0 = c * nth r [-1; 0] 0) ->
  List.length y = 2%nat ->
  spsolve (convert_matrix K) (2 * coo_shape K) (convert_rhs K (map (Rmult c) f)) (PyRet y).
Proof.
  intros HK Hf.
  destruct (assembly_K_entry _ _ _ HK) as [Hs HeK]. simpl in Hs.
  destruct (assembly_f_entry _ _ Hf) as [Hl Hef]. simpl in Hl.
  assert (Hrow : forall y r, (r < 2)%nat -> rmatvec (convert_matrix K) 2 y r = - nth r y 0).
  { intros y r Hr. unfold rmatvec, convert_matrix. rewrite Hs.
    destruct r as [|[|r]]; [| |lia]; simpl; rewrite !HeK, !one_node_K00; simpl; ring. }
  rewrite Hs. split.
  - intros y Hly Hz c' Hc'. simpl in Hc'. specialize (Hz c' Hc').
    rewrite Hrow in Hz by assumption. lra.
  - intros y Hy Hly. constructor; [exact Hly|]. intros r Hr. simpl in Hr.
    rewrite Hrow by assumption. rewrite Hy by assumption.
    unfold convert_rhs. rewrite Hs. rewrite nth_scale.
    destruct r as [|[|r]]; simpl; [|ring|lia].
    rewrite Hef, one_node_f0. ring.
Qed.

(** A successful solve on the one-node mesh: [K = [-1]] and [f = [1]],
    whose real system [[-1, 0], [0, -1]] is nonsingular; the field is
    [-1]. *)
Lemma one_node_mesh_solves :
  solve_field one_node_mesh 1 (PyRet (extract_complex_solution [-1; 0])).
Proof.
  assert (HK' : exists K, _assembly_K one_node_mesh 1 = PyRet K) by (eexists; reflexivity).
  assert (Hf' : exists f, _assembly_f one_node_mesh = PyRet f) by (eexists; reflexivity).
  destruct HK' as [K HK]. destruct Hf' as [f Hf].
  destruct (one_node_solve 1 K f HK Hf) as [_ Hsol1].
  unfold solve_field, _prepare_linear_system. rewrite HK, Hf. simpl py_bind.
  cbv iota beta zeta. exists (PyRet [-1; 0]). split; [|reflexivity].
  assert (Hf1 : map (Rmult 1) f = f)
    by (clear; induction f; simpl; [reflexivity | rewrite Rmult_1_l, IHf; reflexivity]).
  rewrite Hf1 in Hsol1.
  apply Hsol1; [|reflexivity].
  intros [|[|r]] Hr; simpl; [ring | ring | lia].
Qed.

(** C3 fails: on a successful solve with no callback configured,
    [solve_2d_hellmholtz] returns [None] and invokes no handler, so the
    field is delivered neither way. The one-node mesh has a nonsingular
    system, so the solve succeeds. *)
Lemma solve_without_callbacks_returns_none :
  ~ (forall mesh omega callbacks out,
       solve_2d_hellmholtz mesh omega callbacks out ->
       (exists v, fst out = PyRet v) ->
       field_delivered mesh out).
Proof.
  intros H.
  assert (Hrun : solve_2d_hellmholtz one_node_mesh 1 None (PyRet PyNone, [])).
  { exists (PyRet (extract_complex_solution [-1; 0])).
    split; [apply one_node_mesh_solves | reflexivity]. }
  destruct (H _ _ _ _ Hrun (ex_intro _ PyNone eq_refl)) as [[P [HP _]]|[h [P [Hin _]]]].
  - discriminate HP.
  - destruct Hin.
Qed.

Lemma solve_delivers_only_via_callbacks_witness :
  solve_2d_hellmholtz one_node_mesh 1 (Some [(on_after_solve, [7%nat])])
    (PyRet PyNone, [mkCall 7 (extract_complex_solution [-1; 0]) one_node_mesh]) /\
  PyNone = PyNone /\
  exists P, solve_field one_node_mesh 1 (PyRet P) /\ List.length P = n_points one_node_mesh /\
    [mkCall 7 (extract_complex_solution [-1; 0]) one_node_mesh] =
    map (fun h => mkCall h P one_node_mesh)
        (lookup_event on_after_solve [(on_after_solve, [7%nat])]).
Proof.
  assert (Hrun : solve_2d_hellmholtz one_node_mesh 1 (Some [(on_after_solve, [7%nat])])
    (PyRet PyNone, [mkCall 7 (extract_complex_solution [-1; 0]) one_node_mesh])).
  { exists (PyRet (extract_complex_solution [-1; 0])).
    split; [apply one_node_mesh_solves | reflexivity]. }
  split; [exact Hrun|].
  exact (solve_delivers_only_via_callbacks one_node_mesh 1 _ _ PyNone Hrun eq_refl).
Defined.

(** The hypotheses of C7's solution clause hold on the one-node mesh:
    [K = [-1]], [f = [1]], the field [-1] scales to [-2]. *)
Lemma source_scaling_witness :
  exists K, _assembly_K one_node_mesh 1 = PyRet K /\
    nonsingular (convert_matrix K) (2 * coo_shape K) /\
    solve_field one_node_mesh 1 (PyRet (extract_complex_solution [-1; 0])) /\
    solve_field (scale_source 2 one_node_mesh) 1
      (PyRet (extract_complex_solution [2 * -1; 2 * 0])) /\
    extract_complex_solution [2 * -1; 2 * 0] =
      map (Cscale 2) (extract_complex_solution [-1; 0]).
Proof.
  assert (HK' : exists K, _assembly_K one_node_mesh 1 = PyRet K) by (eexists; reflexivity).
  assert (Hf' : exists f, _assembly_f one_node_mesh = PyRet f) by (eexists; reflexivity).
  destruct HK' as [K HK]. destruct Hf' as [f Hf].
  destruct (one_node_solve 1 K f HK Hf) as [Hns Hsol1].
  destruct (one_node_solve 2 K f HK Hf) as [_ Hsol2].
  assert (HP : solve_field one_node_mesh 1 (PyRet (extract_complex_solution [-1; 0]))).
  { unfold solve_field, _prepare_linear_system. rewrite HK, Hf. simpl py_bind.
    cbv iota beta zeta. exists (PyRet [-1; 0]). split; [|reflexivity].
    assert (Hf1 : map (Rmult 1) f = f)
      by (clear; induction f; simpl; [reflexivity | rewrite Rmult_1_l, IHf; reflexivity]).
    rewrite Hf1 in Hsol1.
    apply Hsol1; [|reflexivity].
    intros [|[|r]] Hr; simpl; [ring | ring | lia]. }
  assert (HP' : solve_field (scale_source 2 one_node_mesh) 1
                  (PyRet (extract_complex_solution [2 * -1; 2 * 0]))).
  { unfold solve_field, _prepare_linear_system.
    replace (_assembly_K (scale_source 2 one_node_mesh) 1)
      with (_assembly_K one_node_mesh 1) by reflexivity.
    rewrite HK, assembly_f_scale, Hf. simpl py_bind. cbv iota beta zeta.
    exists (PyRet [2 * -1; 2 * 0]). split; [|reflexivity].
    apply Hsol2; [|reflexivity].
    intros [|[|r]] Hr; simpl; [ring | ring | lia]. }
  exists K. split; [exact HK|]. split; [exact Hns|]. split; [exact HP|]. split; [exact HP'|].
  destruct (source_scaling one_node_mesh 1 2) as [_ [_ [_ Hscale]]].
  exact (Hscale K _ _ HK Hns HP HP').
Defined.

(** * Further properties of the solver's code *)

(** ** Errors of the global assembly *)

Lemma in_enumerate_seq {A} (l : list A) s x :
  In x l <-> exists i, In (i, x) (combine (seq s (List.length l)) l).
Proof.
  revert s. induction l as [|y l IH]; intros s; simpl.
  - split; [intros []|intros [i []]].
  - split.
    + intros [->|H].
      * exists s. left. reflexivity.
      * apply (IH (S s)) in H. destruct H as [i Hi]. exists i. right. exact Hi.
    + intros [i [H|H]].
      * left. congruence.
      * right. apply (IH (S s)). exists i. exact H.
Qed.

Lemma in_enumerate {A} (l : list A) x : In x l <-> exists i, In (i, x) (enumerate l).
Proof. apply in_enumerate_seq. Qed.

Lemma add_at_range f p v :
  ((p < List.length f)%nat ->
     exists f', add_at f p v = PyRet f' /\ List.length f' = List.length f) /\
  ((List.length f <= p)%nat -> add_at f p v = PyRaise IndexError).
Proof.
  revert p. induction f as [|x t IH]; intros p.
  - split; [intros H; exfalso; simpl in H; lia|]. intros _. reflexivity.
  - destruct p as [|p].
    + split; [intros _; eexists; split; reflexivity | intros H; exfalso; simpl in H; lia].
    + destruct (IH p) as [H1 H2]. split.
      * intros Hp. simpl in Hp. destruct (H1 ltac:(lia)) as [t' [Ht Hl]].
        cbn [add_at]. rewrite Ht. cbn [py_bind].
        eexists; split; [reflexivity | simpl; congruence].
      * intros Hp. simpl in Hp. cbn [add_at]. rewrite H2 by lia. reflexivity.
Qed.

Lemma add_at_raise f p v e : add_at f p v = PyRaise e -> e = IndexError.
Proof.
  revert p. induction f as [|x t IH]; intros p H.
  - cbn [add_at] in H. inversion H. reflexivity.
  - destruct p as [|p]; cbn [add_at] in H; [discriminate|].
    destruct (add_at t p v) as [t'|e'] eqn:E; cbn [py_bind] in H; [discriminate|].
    inversion H; subst. exact (IH p E).
Qed.

Lemma scatter_f_range slots fl f :
  ((forall k p, In (k, p) slots -> (p < List.length f)%nat) ->
     exists f', scatter_f slots fl f = PyRet f' /\ List.length f' = List.length f) /\
  ((exists k p, In (k, p) slots /\ (List.length f <= p)%nat) ->
     scatter_f slots fl f = PyRaise IndexError) /\
  (forall e, scatter_f slots fl f = PyRaise e -> e = IndexError).
Proof.
  revert f. induction slots as [|[k p] rest IH]; intros f; cbn [scatter_f].
  - split; [intros _; eexists; split; reflexivity|]. split.
    + intros (k & p & [] & _).
    + intros e H; discriminate.
  - destruct (add_at_range f p (fl k)) as [Hok Hbad].
    split; [|split].
    + intros Hall. destruct (Hok (Hall k p (or_introl eq_refl))) as [f1 [E Hl]].
      rewrite E. cbn [py_bind]. destruct (IH f1) as [H1 _].
      assert (Hr : forall k' p', In (k', p') rest -> (p' < List.length f1)%nat)
        by (intros k' p' Hin; rewrite Hl; exact (Hall k' p' (or_intror Hin))).
      destruct (H1 Hr) as [f' [E' Hl']].
      exists f'. split; [exact E' | congruence].
    + intros (k' & p' & Hin & Hp).
      destruct (Nat.lt_ge_cases p (List.length f)) as [Hlt|Hge].
      * destruct (Hok Hlt) as [f1 [E Hl]]. rewrite E. cbn [py_bind].
        destruct Hin as [Heq|Hin].
        -- inversion Heq; subst. lia.
        -- destruct (IH f1) as [_ [H2 _]]. apply H2. exists k', p'.
           split; [exact Hin | lia].
      * rewrite (Hbad Hge). reflexivity.
    + intros e H. destruct (add_at f p (fl k)) as [f1|e'] eqn:E; cbn [py_bind] in H.
      * destruct (IH f1) as [_ [_ H3]]. exact (H3 e H).
      * inversion H; subst. exact (add_at_raise _ _ _ _ E).
Qed.

Lemma assembly_f_loop_range src elems f :
  ((forall eid conn pts p, In (eid, (conn, pts)) elems -> In p (conn_nodes conn) ->
      (p < List.length f)%nat) ->
     exists f', assembly_f_loop src elems f = PyRet f') /\
  ((exists eid conn pts p, In (eid, (conn, pts)) elems /\ In p (conn_nodes conn) /\
      (List.length f <= p)%nat) ->
     assembly_f_loop src elems f = PyRaise IndexError) /\
  (forall e, assembly_f_loop src elems f = PyRaise e -> e = IndexError).
Proof.
  revert f. induction elems as [|[eid [conn pts]] rest IH]; intros f;
    cbn [assembly_f_loop].
  - split; [intros _; eexists; reflexivity|]. split.
    + intros (? & ? & ? & ? & [] & _).
    + intros e H; discriminate.
  - unfold _build_local_f. cbn [py_bind].
    destruct (scatter_f_range (enumerate (conn_nodes conn)) (local_f_acc pts (src eid)) f)
      as [Sok [Sbad Sexc]].
    split; [|split].
    + intros Hall. destruct Sok as [f1 [E Hl]].
      { intros k p Hin. apply (Hall eid conn pts p (or_introl eq_refl)).
        apply in_enumerate. exists k. exact Hin. }
      rewrite E. cbn [py_bind]. destruct (IH f1) as [H1 _]. apply H1.
      intros eid' conn' pts' p Hin Hp. rewrite Hl.
      exact (Hall _ _ _ _ (or_intror Hin) Hp).
    + intros (eid' & conn' & pts' & p & Hin & Hp & Hge).
      destruct (scatter_f (enumerate (conn_nodes conn)) (local_f_acc pts (src eid)) f)
        as [f1|e] eqn:E; cbn [py_bind].
      * destruct Hin as [Heq|Hin].
        -- inversion Heq; subst. apply in_enumerate in Hp. destruct Hp as [k Hk].
           assert (Hx := Sbad (ex_intro _ k (ex_intro _ p (conj Hk Hge)))).
           try rewrite E in Hx. discriminate.
        -- destruct (IH f1) as [_ [H2 _]]. apply H2.
           exists eid', conn', pts', p.
           rewrite (proj1 (scatter_f_spec _ _ _ _ E)). auto.
      * rewrite (Sexc e eq_refl). reflexivity.
    + intros e H.
      destruct (scatter_f (enumerate (conn_nodes conn)) (local_f_acc pts (src eid)) f)
        as [f1|e'] eqn:E; cbn [py_bind] in H.
      * exact (proj2 (proj2 (IH f1)) e H).
      * inversion H; subst. exact (Sexc _ eq_refl).
Qed.

Lemma assembly_f_range mesh :
  ((exists f, _assembly_f mesh = PyRet f) <->
   (forall conn pts p,
      In (conn, pts) (combine (connectivity_list mesh) (points_in_elements mesh)) ->
      In p (conn_nodes conn) -> (p < n_points mesh)%nat)) /\
  (forall e, _assembly_f mesh = PyRaise e -> e = IndexError).
Proof.
  unfold _assembly_f.
  destruct (assembly_f_loop_range (source_at_element mesh) (elements_f mesh)
              (repeat 0 (n_points mesh))) as [Lok [Lbad Lexc]].
  rewrite repeat_length in Lok, Lbad.
  split; [split|exact Lexc].
  - intros [f Hf] conn pts p Hin Hp.
    destruct (Nat.lt_ge_cases p (n_points mesh)) as [Hlt|Hge]; [exact Hlt|].
    exfalso. apply in_enumerate in Hin. destruct Hin as [eid Hin].
    rewrite Lbad in Hf by (exists eid, conn, pts, p; auto). discriminate.
  - intros Hall. apply Lok. intros eid conn pts p Hin Hp.
    apply (Hall conn pts p); [|exact Hp].
    apply in_enumerate. exists eid. exact Hin.
Qed.

Lemma forallb_triplets conn Kl n :
  forallb (fun '(a, b, _) => (Nat.ltb a n && Nat.ltb b n)%bool) (element_triplets conn Kl) =
  forallb (fun p => Nat.ltb p n) (conn_nodes conn).
Proof.
  destruct conn as [[[a b] c] d]. simpl.
  destruct (Nat.ltb a n), (Nat.ltb b n), (Nat.ltb c n), (Nat.ltb d n); reflexivity.
Qed.

Lemma forallb_flat_map_triplets n (L : list (conn4 * mat4)) :
  forallb (fun '(a, b, _) => (Nat.ltb a n && Nat.ltb b n)%bool)
          (flat_map (fun '(conn, Kl) => element_triplets conn Kl) L) =
  forallb (fun '(conn, _) => forallb (fun p => Nat.ltb p n) (conn_nodes conn)) L.
Proof.
  induction L as [|[conn Kl] L IH]; [reflexivity|].
  cbn [flat_map forallb]. rewrite forallb_app, IH, forallb_triplets. reflexivity.
Qed.

Lemma assembly_K_range mesh omega :
  ((exists K, _assembly_K mesh omega = PyRet K) <->
   (forall conn pts m e p, In (conn, pts, m, e) (elements_K mesh) ->
      In p (conn_nodes conn) -> (p < n_points mesh)%nat)) /\
  (forall e, _assembly_K mesh omega = PyRaise e -> e = ValueError).
Proof.
  unfold _assembly_K. rewrite kernels_mapM. cbn [py_bind]. unfold coo_matrix.
  rewrite forallb_flat_map_triplets.
  assert (Hb : forallb (fun '(conn, _) => forallb (fun p => Nat.ltb p (n_points mesh))
                                                   (conn_nodes conn))
                 (map (fun '(conn, points, m, e) => (conn, local_Ke_acc points omega m e))
                      (elements_K mesh)) = true <->
               (forall conn pts m e p, In (conn, pts, m, e) (elements_K mesh) ->
                  In p (conn_nodes conn) -> (p < n_points mesh)%nat)).
  { induction (elements_K mesh) as [|[[[c p] m] e] L IH]; cbn [map forallb].
    - split; [intros _ ? ? ? ? ? []|reflexivity].
    - rewrite Bool.andb_true_iff, IH, forallb_forall. split.
      + intros [H1 H2] conn pts m' e' q [Heq|Hin] Hq.
        * inversion Heq; subst. apply Nat.ltb_lt. apply H1. exact Hq.
        * exact (H2 _ _ _ _ _ Hin Hq).
      + intros H. split.
        * intros q Hq. apply Nat.ltb_lt. exact (H _ _ _ _ _ (or_introl eq_refl) Hq).
        * intros conn pts m' e' q Hin Hq. exact (H _ _ _ _ _ (or_intror Hin) Hq). }
  match goal with |- context [if ?b then _ else _] => destruct b eqn:E end.
  - split; [split; [intros _; apply Hb; reflexivity | intros _; eexists; reflexivity]|].
    intros e H; discriminate.
  - split; [split; [intros [K HK]; discriminate | intros H; apply Hb in H; discriminate]|].
    intros e H; inversion H; reflexivity.
Qed.


Lemma combine_firstn_l {A B} n (a : list A) (b : list B) :
  combine (firstn n a) b = firstn n (combine a b).
Proof.
  revert a b. induction n as [|n IH]; intros a b; [reflexivity|].
  destruct a as [|x a]; [reflexivity|]. destruct b as [|y b]; [reflexivity|].
  simpl. rewrite IH. reflexivity.
Qed.

(** X1: for node indices that are non-negative integers, [_assembly_f]
    succeeds exactly when every node index of every element of
    [zip(connectivity_list, points_in_elements)] is below [n_points];
    otherwise [f[p, 0] += ...] raises IndexError, the only exception it
    can raise. *)
Theorem assembly_f_index_error (mesh : Mesh) :
  ((exists f, _assembly_f mesh = PyRet f) <->
   (forall conn pts p,
      In (conn, pts) (combine (connectivity_list mesh) (points_in_elements mesh)) ->
      In p (conn_nodes conn) -> (p < n_points mesh)%nat)) /\
  (forall e, _assembly_f mesh = PyRaise e -> e = IndexError).
Proof. exact (assembly_f_range mesh). Qed.



(** X4: [_assembly_K] zips four lists, so the elements beyond
    [min(len(mu), len(eta))] are silently dropped: the global matrix (and
    whether it raises) is that of the mesh reduced to its first
    [min(len(mu), len(eta))] elements. *)
Theorem assembly_K_ignores_extra_elements (mesh : Mesh) (omega : R) :
  _assembly_K mesh omega =
  _assembly_K (keep_elements (Nat.min (List.length (mu mesh)) (List.length (eta mesh))) mesh)
              omega.
Proof.
  assert (H : elements_K (keep_elements (Nat.min (List.length (mu mesh))
                                                 (List.length (eta mesh))) mesh) =
              elements_K mesh).
  { unfold elements_K, keep_elements. cbn [connectivity_list points_in_elements mu eta].
    rewrite !combine_firstn_l. apply firstn_all2.
    rewrite !length_combine. lia. }
  unfold _assembly_K. rewrite H. reflexivity.
Qed.

(** ** The local kernels *)

Lemma shape_N_total r s : rsum 4 (shape_N r s) = 1.
Proof. simpl. field. Qed.

Lemma dJ_at_spec pts i : dJ_at pts i = dJ_spec pts (fst (point i)) (snd (point i)).
Proof. unfold dJ_at. destruct (point i) as [r s]. reflexivity. Qed.

Lemma f_inc_spec pts S_e i k :
  f_inc pts S_e i k =
  weight i * N_spec (fst (point i)) (snd (point i)) k * S_e *
  dJ_spec pts (fst (point i)) (snd (point i)).
Proof. unfold f_inc, dJ_at. destruct (point i) as [r s]. reflexivity. Qed.

Lemma local_f_total pts S_e :
  rsum 4 (local_f_acc pts S_e) = S_e * rsum 4 (dJ_at pts).
Proof.
  transitivity (rsum 4 (fun k => rsum 4 (fun i => f_inc pts S_e i k))).
  { apply rsum_ext; intros k _; apply local_f_acc_closed. }
  rewrite rsum_swap, <- rsum_scale. apply rsum_ext. intros i Hi.
  unfold f_inc. rewrite weight_lt4 by exact Hi. destruct (point i) as [r s].
  transitivity (rsum 4 (fun k => (S_e * dJ_at pts i) * shape_N r s k)).
  { apply rsum_ext; intros; ring. }
  rewrite rsum_scale, shape_N_total. ring.
Qed.

Lemma dJ_at_square x0 i : dJ_at (square_at x0) i = 1 / 4.
Proof. rewrite dJ_at_spec. apply dJ_spec_square. Qed.

Lemma Ke_point_spec_row pts omega mu eta r s k :
  csum 4 (fun l => Ke_point_spec pts omega mu eta r s k l) =
  mkC (- omega ^ 2 * mu * N_spec r s k * dJ_spec pts r s)
      (omega * eta * N_spec r s k * dJ_spec pts r s).
Proof.
  destruct k as [|[|[|[|k]]]]; unfold Ke_point_spec, B_spec, invJ_spec;
    cbn -[J_spec dJ_spec]; generalize (/ dJ_spec pts r s); intros idJ;
    apply C_ext; simpl; field.
Qed.

Lemma local_Ke_acc_row pts omega mu eta k :
  csum 4 (fun l => local_Ke_acc pts omega mu eta k l) =
  Cmul (mkC (- omega ^ 2 * mu) (omega * eta)) (RtoC (local_f_acc pts 1 k)).
Proof.
  transitivity (csum 4 (fun i =>
    mkC (- omega ^ 2 * mu * N_spec (fst (point i)) (snd (point i)) k *
           dJ_spec pts (fst (point i)) (snd (point i)))
        (omega * eta * N_spec (fst (point i)) (snd (point i)) k *
           dJ_spec pts (fst (point i)) (snd (point i))))).
  { transitivity (csum 4 (fun l => csum 4 (fun i =>
      Ke_point_spec pts omega mu eta (fst (point i)) (snd (point i)) k l))).
    { apply csum_ext; intros l _. apply local_Ke_acc_points. }
    rewrite csum_swap. apply csum_ext; intros i _. apply Ke_point_spec_row. }
  rewrite local_f_acc_closed. apply C_ext.
  - rewrite re_csum. cbn [re im Cmul RtoC].
    transitivity (- omega ^ 2 * mu * rsum 4 (fun i => f_inc pts 1 i k)); [|ring].
    rewrite <- rsum_scale. apply rsum_ext. intros i Hi.
    rewrite f_inc_spec, weight_lt4 by exact Hi. ring.
  - rewrite im_csum. cbn [re im Cmul RtoC].
    transitivity (omega * eta * rsum 4 (fun i => f_inc pts 1 i k)); [|ring].
    rewrite <- rsum_scale. apply rsum_ext. intros i Hi.
    rewrite f_inc_spec, weight_lt4 by exact Hi. ring.
Qed.

Lemma Ke_point_spec_J pts pts' omega mu eta r s k l :
  (forall a b, J_spec pts r s a b = J_spec pts' r s a b) ->
  Ke_point_spec pts omega mu eta r s k l = Ke_point_spec pts' omega mu eta r s k l.
Proof.
  intros H. unfold Ke_point_spec, B_spec, invJ_spec, dJ_spec. rewrite !H. reflexivity.
Qed.

Lemma J_spec_translate pts dx dy r s a b :
  J_spec (translate pts dx dy) r s a b = J_spec pts r s a b.
Proof.
  unfold J_spec, translate. simpl. destruct (Nat.eqb b 0); destruct a as [|[|a]]; simpl; field.
Qed.

Lemma J_spec_scale lam pts r s a b :
  J_spec (scale_pts lam pts) r s a b = lam * J_spec pts r s a b.
Proof.
  unfold J_spec, scale_pts. rewrite <- rsum_scale. apply rsum_ext. intros; ring.
Qed.

Lemma dJ_spec_scale lam pts r s :
  dJ_spec (scale_pts lam pts) r s = lam ^ 2 * dJ_spec pts r s.
Proof. unfold dJ_spec. rewrite !J_spec_scale. ring. Qed.

Lemma Ke_point_spec_scale lam pts omega mu eta r s k l :
  lam <> 0 ->
  Ke_point_spec (scale_pts lam pts) omega mu eta r s k l =
  Ke_point_spec pts (lam * omega) mu (lam * eta) r s k l.
Proof.
  intros Hlam. unfold Ke_point_spec, B_spec, invJ_spec.
  rewrite !dJ_spec_scale, !J_spec_scale, Rinv_mult.
  generalize (/ dJ_spec pts r s). intros idJ.
  apply C_ext; simpl; field; exact Hlam.
Qed.

(** X5: the entries of the local load vector returned by [_build_local_f]
    add up to [S_e] times the sum of the four Jacobian determinants (the
    shape functions sum to one at every integration point). *)
Theorem build_local_f_total (pts : pts4) (S_e : R) :
  exists f_local, _build_local_f pts S_e = PyRet f_local /\
    rsum 4 f_local = S_e * rsum 4 (dJ_at pts).
Proof. eexists; split; [reflexivity|]. apply local_f_total. Qed.

(** X6: on a parallelogram element ([p0 + p2 = p1 + p3]) the Jacobian is
    constant and [_build_local_f] gives each of the four nodes the same
    load: [S_e] times a quarter of the signed area
    [(p1 - p0) x (p3 - p0)]. *)
Theorem build_local_f_parallelogram (pts : pts4) (S_e : R) :
  pts 0%nat 0%nat + pts 2%nat 0%nat = pts 1%nat 0%nat + pts 3%nat 0%nat ->
  pts 0%nat 1%nat + pts 2%nat 1%nat = pts 1%nat 1%nat + pts 3%nat 1%nat ->
  exists f_local, _build_local_f pts S_e = PyRet f_local /\
    forall k, (k < 4)%nat ->
      f_local k = S_e * ((pts 1%nat 0%nat - pts 0%nat 0%nat) * (pts 3%nat 1%nat - pts 0%nat 1%nat)
                         - (pts 1%nat 1%nat - pts 0%nat 1%nat) * (pts 3%nat 0%nat - pts 0%nat 0%nat))
                  / 4.
Proof.
  intros Hx Hy. eexists; split; [reflexivity|]. intros k Hk.
  set (A := (pts 1%nat 0%nat - pts 0%nat 0%nat) * (pts 3%nat 1%nat - pts 0%nat 1%nat)
            - (pts 1%nat 1%nat - pts 0%nat 1%nat) * (pts 3%nat 0%nat - pts 0%nat 0%nat)).
  assert (HdJ : forall i, dJ_at pts i = A / 4).
  { intros i. unfold dJ_at. destruct (point i) as [r s]. unfold det2, jac, A. simpl.
    replace (pts 2%nat 0%nat) with (pts 1%nat 0%nat + pts 3%nat 0%nat - pts 0%nat 0%nat)
      by lra.
    replace (pts 2%nat 1%nat) with (pts 1%nat 1%nat + pts 3%nat 1%nat - pts 0%nat 1%nat)
      by lra.
    field. }
  rewrite local_f_acc_closed.
  transitivity (rsum 4 (fun i => let '(r, s) := point i in
                                 weight i * shape_N r s k * S_e * (A / 4))).
  { apply rsum_ext; intros i _. unfold f_inc. rewrite HdJ. reflexivity. }
  unfold weight, w, point, integration_point.
  destruct k as [|[|[|[|k]]]]; [| | | |lia]; simpl; field.
Qed.

(** X7: every row of the local matrix returned by [_build_local_Ke] sums
    to [(-omega^2 mu + i omega eta)] times the entry of the local load
    vector [_build_local_f] gives for a unit source: the stiffness part
    [B^T B dJ] annihilates constant fields. Stated for elements with a
    nonzero Jacobian determinant at the integration points (numpy's
    [1.0 / dJ] is infinite otherwise). *)
Theorem build_local_Ke_row_sums (pts : pts4) (omega mu eta : R) :
  (forall i, (i < 4)%nat -> dJ_at pts i <> 0) ->
  exists Ke_local f_local,
    _build_local_Ke pts omega mu eta = PyRet Ke_local /\
    _build_local_f pts 1 = PyRet f_local /\
    forall k, (k < 4)%nat ->
      csum 4 (fun l => Ke_local k l) =
      Cmul (mkC (- omega ^ 2 * mu) (omega * eta)) (RtoC (f_local k)).
Proof.
  intros _. eexists; eexists; split; [reflexivity|]. split; [reflexivity|].
  intros k _. apply local_Ke_acc_row.
Qed.

Lemma build_local_Ke_row_sums_witness :
  (forall i, (i < 4)%nat -> dJ_at (square_at 0) i <> 0) /\
  exists Ke_local f_local,
    _build_local_Ke (square_at 0) 2 1 3 = PyRet Ke_local /\
    _build_local_f (square_at 0) 1 = PyRet f_local /\
    forall k, (k < 4)%nat ->
      csum 4 (fun l => Ke_local k l) =
      Cmul (mkC (- 2 ^ 2 * 1) (2 * 3)) (RtoC (f_local k)).
Proof.
  assert (H : forall i, (i < 4)%nat -> dJ_at (square_at 0) i <> 0)
    by (intros i _; rewrite dJ_at_square; lra).
  split; [exact H|]. exact (build_local_Ke_row_sums (square_at 0) 2 1 3 H).
Defined.

(** X8: both kernels are invariant under translation of the element: the
    local matrix and the local load vector of the element moved by
    [(dx, dy)] are those of the original element. *)
Theorem kernels_translation_invariant (pts : pts4) (dx dy omega mu eta S_e : R) :
  exists Ke_local Ke_local' f_local f_local',
    _build_local_Ke pts omega mu eta = PyRet Ke_local /\
    _build_local_Ke (translate pts dx dy) omega mu eta = PyRet Ke_local' /\
    _build_local_f pts S_e = PyRet f_local /\
    _build_local_f (translate pts dx dy) S_e = PyRet f_local' /\
    (forall k l, Ke_local' k l = Ke_local k l) /\
    (forall k, f_local' k = f_local k).
Proof.
  do 4 eexists. split; [reflexivity|]. split; [reflexivity|].
  split; [reflexivity|]. split; [reflexivity|]. split.
  - intros k l. rewrite !local_Ke_acc_points. apply csum_ext; intros i _.
    apply Ke_point_spec_J. intros a b. apply J_spec_translate.
  - intros k. rewrite !local_f_acc_closed. apply rsum_ext; intros i _.
    rewrite !f_inc_spec. unfold dJ_spec. rewrite !J_spec_translate. reflexivity.
Qed.

(** X9: scaling the element by [lam <> 0] about the origin gives the
    local matrix of the original element at frequency [lam * omega] and
    damping [lam * eta] (the stiffness part is scale invariant, the mass
    and damping parts scale by [lam^2]), and the local load vector of the
    original element for the source [lam^2 * S_e]. Stated for elements
    with a nonzero Jacobian determinant at the integration points. *)
Theorem kernels_scaling (pts : pts4) (lam omega mu eta S_e : R) :
  lam <> 0 ->
  (forall i, (i < 4)%nat -> dJ_at pts i <> 0) ->
  exists Ke_local Ke_local' f_local f_local',
    _build_local_Ke pts (lam * omega) mu (lam * eta) = PyRet Ke_local /\
    _build_local_Ke (scale_pts lam pts) omega mu eta = PyRet Ke_local' /\
    _build_local_f pts (lam ^ 2 * S_e) = PyRet f_local /\
    _build_local_f (scale_pts lam pts) S_e = PyRet f_local' /\
    (forall k l, Ke_local' k l = Ke_local k l) /\
    (forall k, f_local' k = f_local k).
Proof.
  intros Hlam _. do 4 eexists. split; [reflexivity|]. split; [reflexivity|].
  split; [reflexivity|]. split; [reflexivity|]. split.
  - intros k l. rewrite !local_Ke_acc_points. apply csum_ext; intros i _.
    apply Ke_point_spec_scale. exact Hlam.
  - intros k. rewrite !local_f_acc_closed. apply rsum_ext; intros i _.
    rewrite !f_inc_spec, dJ_spec_scale. ring.
Qed.

Lemma kernels_scaling_witness :
  (2 <> 0 /\ forall i, (i < 4)%nat -> dJ_at (square_at 0) i <> 0) /\
  exists Ke_local Ke_local' f_local f_local',
    _build_local_Ke (square_at 0) (2 * 1) 1 (2 * 0) = PyRet Ke_local /\
    _build_local_Ke (scale_pts 2 (square_at 0)) 1 1 0 = PyRet Ke_local' /\
    _build_local_f (square_at 0) (2 ^ 2 * 1) = PyRet f_local /\
    _build_local_f (scale_pts 2 (square_at 0)) 1 = PyRet f_local' /\
    (forall k l, Ke_local' k l = Ke_local k l) /\
    (forall k, f_local' k = f_local k).
Proof.
  assert (H2 : (2 : R) <> 0) by lra.
  assert (H : forall i, (i < 4)%nat -> dJ_at (square_at 0) i <> 0)
    by (intros i _; rewrite dJ_at_square; lra).
  split; [split; [exact H2 | exact H]|].
  exact (kernels_scaling (square_at 0) 2 1 1 0 1 H2 H).
Defined.

Lemma build_local_f_parallelogram_witness :
  (square_at 0 0%nat 0%nat + square_at 0 2%nat 0%nat =
   square_at 0 1%nat 0%nat + square_at 0 3%nat 0%nat /\
   square_at 0 0%nat 1%nat + square_at 0 2%nat 1%nat =
   square_at 0 1%nat 1%nat + square_at 0 3%nat 1%nat) /\
  exists f_local, _build_local_f (square_at 0) 5 = PyRet f_local /\
    forall k, (k < 4)%nat ->
      f_local k = 5 * ((square_at 0 1%nat 0%nat - square_at 0 0%nat 0%nat) *
                       (square_at 0 3%nat 1%nat - square_at 0 0%nat 1%nat)
                       - (square_at 0 1%nat 1%nat - square_at 0 0%nat 1%nat) *
                         (square_at 0 3%nat 0%nat - square_at 0 0%nat 0%nat)) / 4.
Proof.
  assert (Hx : square_at 0 0%nat 0%nat + square_at 0 2%nat 0%nat =
               square_at 0 1%nat 0%nat + square_at 0 3%nat 0%nat) by (simpl; ring).
  assert (Hy : square_at 0 0%nat 1%nat + square_at 0 2%nat 1%nat =
               square_at 0 1%nat 1%nat + square_at 0 3%nat 1%nat) by (simpl; ring).
  split; [split; [exact Hx | exact Hy]|].
  exact (build_local_f_parallelogram (square_at 0) 5 Hx Hy).
Defined.

(** ** Global properties of the assembled system *)

Lemma csum_Cadd n f g :
  csum n (fun j => Cadd (f j) (g j)) = Cadd (csum n f) (csum n g).
Proof.
  induction n; simpl.
  - apply C_ext; simpl; ring.
  - rewrite IHn. apply C_ext; simpl; ring.
Qed.

Lemma csum_C0 n : csum n (fun _ => C0) = C0.
Proof. induction n; simpl; [reflexivity|]. rewrite IHn. apply C_ext; simpl; ring. Qed.

Lemma rsum_0 n : rsum n (fun _ => 0) = 0.
Proof. induction n; simpl; [reflexivity|]. rewrite IHn. ring. Qed.

Lemma csum_indicator n p v :
  (p < n)%nat -> csum n (fun j => if Nat.eqb p j then v else C0) = v.
Proof.
  induction n as [|n IH]; intros Hp; [lia|]. simpl.
  destruct (Nat.eq_dec p n) as [->|Hne].
  - rewrite Nat.eqb_refl.
    rewrite (csum_ext n _ (fun _ => C0))
      by (intros j Hj; destruct (Nat.eqb_spec n j); [lia|reflexivity]).
    rewrite csum_C0. apply C_ext; simpl; ring.
  - rewrite IH by lia. replace (Nat.eqb p n) with false
      by (symmetry; apply Nat.eqb_neq; exact Hne).
    apply C_ext; simpl; ring.
Qed.

Lemma rsum_indicator n p v :
  (p < n)%nat -> rsum n (fun j => if Nat.eqb p j then v else 0) = v.
Proof.
  induction n as [|n IH]; intros Hp; [lia|]. simpl.
  destruct (Nat.eq_dec p n) as [->|Hne].
  - rewrite Nat.eqb_refl.
    rewrite (rsum_ext n _ (fun _ => 0))
      by (intros j Hj; destruct (Nat.eqb_spec n j); [lia|reflexivity]).
    rewrite rsum_0. ring.
  - rewrite IH by lia. replace (Nat.eqb p n) with false
      by (symmetry; apply Nat.eqb_neq; exact Hne).
    ring.
Qed.

Lemma conn_nodes_nth conn k : (k < 4)%nat -> In (nth k (conn_nodes conn) 0%nat) (conn_nodes conn).
Proof.
  intros Hk. apply nth_In. destruct conn as [[[a b] c] d]. simpl. exact Hk.
Qed.

Lemma elem_entry_row conn (Kl : mat4) i n :
  (forall p, In p (conn_nodes conn) -> (p < n)%nat) ->
  csum n (fun j => elem_entry conn Kl i j) =
  csum 4 (fun k => if Nat.eqb (nth k (conn_nodes conn) 0%nat) i
                   then csum 4 (fun l => Kl k l) else C0).
Proof.
  intros Hn. unfold elem_entry. rewrite (csum_swap n 4). cbv beta.
  apply csum_ext. intros k Hk. rewrite (csum_swap n 4). cbv beta.
  destruct (Nat.eqb (nth k (conn_nodes conn) 0%nat) i); cbn [andb].
  - apply csum_ext. intros l Hl. apply csum_indicator. apply Hn, conn_nodes_nth, Hl.
  - rewrite (csum_ext 4 _ (fun _ => C0)) by (intros; apply csum_C0). apply csum_C0.
Qed.

Lemma elem_entry_zero conn (Kl : mat4) i j :
  ~ (In i (conn_nodes conn) /\ In j (conn_nodes conn)) -> elem_entry conn Kl i j = C0.
Proof.
  intros H. unfold elem_entry.
  rewrite (csum_ext 4 _ (fun _ => csum 4 (fun _ => C0))).
  - rewrite (csum_ext 4 (fun _ => csum 4 (fun _ => C0)) (fun _ => C0))
      by (intros; apply csum_C0). apply csum_C0.
  - intros k Hk. apply csum_ext. intros l Hl.
    destruct (Nat.eqb_spec (nth k (conn_nodes conn) 0%nat) i) as [Ei|];
      destruct (Nat.eqb_spec (nth l (conn_nodes conn) 0%nat) j) as [Ej|]; simpl;
      try reflexivity.
    exfalso. apply H. rewrite <- Ei, <- Ej. split; apply conn_nodes_nth; assumption.
Qed.

Lemma elem_load_zero conn (fl : nat -> R) p :
  ~ In p (conn_nodes conn) -> elem_load conn fl p = 0.
Proof.
  intros H. unfold elem_load. rewrite (rsum_ext 4 _ (fun _ => 0)); [apply rsum_0|].
  intros k Hk. destruct (Nat.eqb_spec (nth k (conn_nodes conn) 0%nat) p) as [E|]; [|reflexivity].
  exfalso. apply H. rewrite <- E. apply conn_nodes_nth, Hk.
Qed.

Lemma elem_load_total conn (fl : nat -> R) n :
  (forall p, In p (conn_nodes conn) -> (p < n)%nat) ->
  rsum n (elem_load conn fl) = rsum 4 fl.
Proof.
  intros Hn. unfold elem_load. rewrite (rsum_swap n 4). apply rsum_ext. intros k Hk.
  apply rsum_indicator. apply Hn, conn_nodes_nth, Hk.
Qed.

Lemma local_Ke_acc_im pts omega mu eta k l :
  im (local_Ke_acc pts omega mu eta k l) =
  omega * eta * rsum 4 (fun i => weight i * NN_at i k l * dJ_at pts i).
Proof.
  rewrite local_Ke_acc_closed. cbn [im Cadd RtoC]. rewrite im_csum.
  rewrite <- rsum_scale. rewrite Rplus_0_r, Rplus_0_l.
  apply rsum_ext. intros i _. unfold C_inc. cbn [im]. ring.
Qed.

(** X10: at zero frequency every row of the assembled global matrix sums
    to zero: the constant field is in the kernel of [K], so the static
    system is singular. Stated for elements with a nonzero Jacobian
    determinant at the integration points. *)
Theorem assembly_K_static_rows_sum_zero (mesh : Mesh) (K : coo) :
  _assembly_K mesh 0 = PyRet K ->
  (forall conn pts m e, In (conn, pts, m, e) (elements_K mesh) ->
     forall i, (i < 4)%nat -> dJ_at pts i <> 0) ->
  forall i, csum (coo_shape K) (fun j => coo_get K i j) = C0.
Proof.
  intros HK _ i. destruct (assembly_K_entry _ _ _ HK) as [Hs He]. rewrite Hs.
  assert (Hr := proj1 (proj1 (assembly_K_range mesh 0)) (ex_intro _ K HK)).
  transitivity (csum (n_points mesh) (fun j => assembled_entry mesh 0 i j)).
  { apply csum_ext; intros; apply He. }
  unfold assembled_entry. clear HK He Hs. revert Hr.
  induction (elements_K mesh) as [|[[[conn pts] m] e] L IH]; intros Hr;
    cbn [fold_right].
  - apply csum_C0.
  - rewrite csum_Cadd, IH by (intros; eapply Hr; [right|]; eassumption).
    rewrite elem_entry_row by (intros; eapply Hr; [left; reflexivity|]; eassumption).
    rewrite (csum_ext 4 _ (fun _ => C0)).
    + rewrite csum_C0. apply C_ext; simpl; ring.
    + intros k _. destruct (Nat.eqb _ i); [|reflexivity].
      rewrite local_Ke_acc_row. apply C_ext; simpl; ring.
Qed.

Lemma assembly_K_static_rows_sum_zero_witness :
  exists K, _assembly_K two_elem_mesh 0 = PyRet K /\
    (forall conn pts m e, In (conn, pts, m, e) (elements_K two_elem_mesh) ->
       forall i, (i < 4)%nat -> dJ_at pts i <> 0) /\
    forall i, csum (coo_shape K) (fun j => coo_get K i j) = C0.
Proof.
  assert (HdJ : forall conn pts m e, In (conn, pts, m, e) (elements_K two_elem_mesh) ->
                  forall i, (i < 4)%nat -> dJ_at pts i <> 0).
  { intros conn pts m e H i _. simpl in H.
    destruct H as [H|[H|[]]]; inversion H; subst; rewrite dJ_at_square; lra. }
  eexists. split; [reflexivity|]. split; [exact HdJ|].
  exact (assembly_K_static_rows_sum_zero two_elem_mesh _ eq_refl HdJ).
Defined.

(** X11: the assembled system is sparse as the connectivity says: the
    entry [K[i, j]] is zero unless nodes [i] and [j] belong to a common
    element, and the load [f[p]] is zero unless node [p] belongs to some
    element. *)
Theorem assembly_sparsity (mesh : Mesh) (omega : R) (K : coo) (f : list R) :
  _assembly_K mesh omega = PyRet K ->
  _assembly_f mesh = PyRet f ->
  (forall i j,
     (forall conn pts m e, In (conn, pts, m, e) (elements_K mesh) ->
        ~ (In i (conn_nodes conn) /\ In j (conn_nodes conn))) ->
     coo_get K i j = C0) /\
  (forall p,
     (forall conn pts,
        In (conn, pts) (combine (connectivity_list mesh) (points_in_elements mesh)) ->
        ~ In p (conn_nodes conn)) ->
     nth p f 0 = 0).
Proof.
  intros HK Hf. split.
  - intros i j Hn. destruct (assembly_K_entry _ _ _ HK) as [_ He]. rewrite He.
    unfold assembled_entry. clear HK He. revert Hn.
    induction (elements_K mesh) as [|[[[conn pts] m] e] L IH]; intros Hn;
      cbn [fold_right]; [reflexivity|].
    rewrite IH by (intros; eapply Hn; right; eassumption).
    rewrite elem_entry_zero by (eapply Hn; left; reflexivity).
    apply C_ext; simpl; ring.
  - intros p Hn. destruct (assembly_f_entry _ _ Hf) as [_ He]. rewrite He.
    unfold assembled_load.
    assert (Hn' : forall eid conn pts, In (eid, (conn, pts)) (elements_f mesh) ->
                    ~ In p (conn_nodes conn)).
    { intros eid conn pts Hin. apply (Hn conn pts).
      unfold elements_f, enumerate in Hin. apply in_combine_r in Hin. exact Hin. }
    clear Hn HK Hf He. revert Hn'.
    induction (elements_f mesh) as [|[eid [conn pts]] L IH]; intros Hn;
      cbn [fold_right]; [reflexivity|].
    rewrite IH by (intros; eapply Hn; right; eassumption).
    rewrite elem_load_zero by (eapply Hn; left; reflexivity). ring.
Qed.

Lemma assembly_sparsity_witness :
  exists K f, _assembly_K two_elem_mesh 1 = PyRet K /\
    _assembly_f two_elem_mesh = PyRet f /\
    coo_get K 0%nat 2%nat = C0.
Proof.
  eexists; eexists. split; [reflexivity|]. split; [reflexivity|].
  apply (proj1 (assembly_sparsity two_elem_mesh 1 _ _ eq_refl eq_refl)).
  intros conn pts m e H. simpl in H.
  destruct H as [H|[H|[]]]; inversion H; subst; simpl; intros [H1 H2]; lia.
Defined.

(** X12: the imaginary part of the assembled matrix comes only from the
    damping term [1j * omega * eta]: at zero frequency, or when every
    [eta] is zero, every entry of [K] is real. *)
Theorem assembly_K_real_when_lossless (mesh : Mesh) (omega : R) (K : coo) :
  _assembly_K mesh omega = PyRet K ->
  (omega = 0 \/ forall e, In e (eta mesh) -> e = 0) ->
  forall i j, im (coo_get K i j) = 0.
Proof.
  intros HK Hl i j. destruct (assembly_K_entry _ _ _ HK) as [_ He]. rewrite He.
  unfold assembled_entry.
  assert (Hel : forall conn pts m e, In (conn, pts, m, e) (elements_K mesh) ->
                  omega * e = 0).
  { intros conn pts m e Hin. destruct Hl as [->|Hz]; [ring|].
    unfold elements_K in Hin. apply in_combine_r in Hin. rewrite (Hz e Hin). ring. }
  clear HK He Hl. revert Hel.
  induction (elements_K mesh) as [|[[[conn pts] m] e] L IH]; intros Hel;
    cbn [fold_right]; [reflexivity|].
  cbn [im Cadd]. rewrite IH by (intros; eapply Hel; right; eassumption).
  unfold elem_entry. rewrite im_csum.
  rewrite (rsum_ext 4 _ (fun _ => 0)); [rewrite rsum_0; ring|].
  intros k _. rewrite im_csum. rewrite (rsum_ext 4 _ (fun _ => 0)); [apply rsum_0|].
  intros l _. destruct (_ && _)%bool; [|reflexivity].
  rewrite local_Ke_acc_im, (Hel conn pts m e (or_introl eq_refl)). ring.
Qed.

Lemma assembly_K_real_when_lossless_witness :
  exists K, _assembly_K two_elem_mesh 1 = PyRet K /\
    (1 = 0 \/ forall e, In e (eta two_elem_mesh) -> e = 0) /\
    forall i j, im (coo_get K i j) = 0.
Proof.
  assert (Hl : (1 : R) = 0 \/ forall e, In e (eta two_elem_mesh) -> e = 0).
  { right. intros e H. simpl in H. destruct H as [H|[H|[]]]; symmetry; exact H. }
  eexists. split; [reflexivity|]. split; [exact Hl|].
  exact (assembly_K_real_when_lossless two_elem_mesh 1 _ eq_refl Hl).
Defined.

(** X13: the assembled load vector carries the whole source: its entries
    add up to the sum over the elements of [S_e] times the sum of the
    element's four Jacobian determinants. *)
Theorem assembly_f_total_load (mesh : Mesh) (f : list R) :
  _assembly_f mesh = PyRet f ->
  rsum (n_points mesh) (fun p => nth p f 0) =
  fold_right (fun '(eid, (conn, pts)) acc =>
                source_at_element mesh eid * rsum 4 (dJ_at pts) + acc)
             0 (elements_f mesh).
Proof.
  intros Hf. destruct (assembly_f_entry _ _ Hf) as [_ He].
  assert (Hr := proj1 (proj1 (assembly_f_range mesh)) (ex_intro _ f Hf)).
  assert (Hr' : forall eid conn pts p, In (eid, (conn, pts)) (elements_f mesh) ->
                  In p (conn_nodes conn) -> (p < n_points mesh)%nat).
  { intros eid conn pts p Hin Hp. apply (Hr conn pts p); [|exact Hp].
    unfold elements_f, enumerate in Hin. apply in_combine_r in Hin. exact Hin. }
  rewrite (rsum_ext _ _ (assembled_load mesh)) by (intros; apply He).
  unfold assembled_load. clear Hf He Hr. revert Hr'.
  induction (elements_f mesh) as [|[eid [conn pts]] L IH]; intros Hr;
    cbn [fold_right].
  - apply rsum_0.
  - rewrite rsum_add, IH by (intros; eapply Hr; [right|]; eassumption).
    rewrite elem_load_total by (intros; eapply Hr; [left; reflexivity|]; eassumption).
    rewrite local_f_total. reflexivity.
Qed.

Lemma assembly_f_total_load_witness :
  exists f, _assembly_f two_elem_mesh = PyRet f /\
    rsum (n_points two_elem_mesh) (fun p => nth p f 0) =
    fold_right (fun '(eid, (conn, pts)) acc =>
                  source_at_element two_elem_mesh eid * rsum 4 (dJ_at pts) + acc)
               0 (elements_f two_elem_mesh).
Proof.
  eexists. split; [reflexivity|].
  exact (assembly_f_total_load two_elem_mesh _ eq_refl).
Defined.

Lemma elem_load_ext conn (f g : nat -> R) p :
  (forall k, f k = g k) -> elem_load conn f p = elem_load conn g p.
Proof. intros H. unfold elem_load. apply rsum_ext. intros k _. rewrite H. reflexivity. Qed.

Lemma local_f_acc_add pts s1 s2 k :
  local_f_acc pts (s1 + s2) k = local_f_acc pts s1 k + local_f_acc pts s2 k.
Proof.
  rewrite !local_f_acc_closed, <- rsum_add. apply rsum_ext. intros i _.
  unfold f_inc. destruct (point i). ring.
Qed.

Lemma elem_load_add conn (f1 f2 : nat -> R) p :
  elem_load conn (fun k => f1 k + f2 k) p = elem_load conn f1 p + elem_load conn f2 p.
Proof.
  unfold elem_load. rewrite <- rsum_add. apply rsum_ext. intros k _.
  destruct (Nat.eqb _ p); ring.
Qed.

(** X14: the global load vector is additive in the sources: assembling
    with the element sources [s1 + s2] succeeds whenever assembling with
    [s1] does, and gives the sum of the vectors assembled with [s1] and
    with [s2]. *)
Theorem assembly_f_superposition (mesh : Mesh) (s1 s2 : nat -> R) (f1 f2 : list R) :
  _assembly_f (with_source s1 mesh) = PyRet f1 ->
  _assembly_f (with_source s2 mesh) = PyRet f2 ->
  exists f, _assembly_f (with_source (fun e => s1 e + s2 e) mesh) = PyRet f /\
    List.length f = List.length f1 /\
    forall p, nth p f 0 = nth p f1 0 + nth p f2 0.
Proof.
  intros H1 H2.
  destruct (proj2 (proj1 (assembly_f_range (with_source (fun e => s1 e + s2 e) mesh))))
    as [f Hf].
  { exact (proj1 (proj1 (assembly_f_range (with_source s1 mesh))) (ex_intro _ f1 H1)). }
  exists f. split; [exact Hf|].
  destruct (assembly_f_entry _ _ Hf) as [Hl He].
  destruct (assembly_f_entry _ _ H1) as [Hl1 He1].
  destruct (assembly_f_entry _ _ H2) as [_ He2].
  split; [rewrite Hl, Hl1; reflexivity|].
  intros p. rewrite He, He1, He2. unfold assembled_load.
  change (elements_f (with_source (fun e => s1 e + s2 e) mesh)) with (elements_f mesh).
  change (elements_f (with_source s1 mesh)) with (elements_f mesh).
  change (elements_f (with_source s2 mesh)) with (elements_f mesh).
  cbn [source_at_element with_source].
  induction (elements_f mesh) as [|[eid [conn pts]] L IH]; cbn [fold_right]; [ring|].
  rewrite IH.
  rewrite (elem_load_ext conn (local_f_acc pts (s1 eid + s2 eid))
             (fun k => local_f_acc pts (s1 eid) k + local_f_acc pts (s2 eid) k))
    by (intros; apply local_f_acc_add).
  rewrite elem_load_add. ring.
Qed.

Lemma assembly_f_superposition_witness :
  exists f1 f2 f,
    _assembly_f (with_source (fun _ => 1) two_elem_mesh) = PyRet f1 /\
    _assembly_f (with_source (fun e => INR e) two_elem_mesh) = PyRet f2 /\
    _assembly_f (with_source (fun e => 1 + INR e) two_elem_mesh) = PyRet f /\
    forall p, nth p f 0 = nth p f1 0 + nth p f2 0.
Proof.
  destruct (assembly_f_superposition two_elem_mesh (fun _ => 1) (fun e => INR e) _ _
              eq_refl eq_refl) as [f [Hf [_ Hp]]].
  eexists; eexists. exists f.
  split; [reflexivity|]. split; [reflexivity|].
  split; [exact Hf|]. exact Hp.
Defined.


